(** * convert_tiff_to_png: a batch TIFF -> PNG converter

    A shallow embedding of [scripts/convert_tiff_to_png.py] and the
    properties of its two functions, [convert_one] and [main].

    The script talks to two libraries: [pathlib] (paths and the file
    system) and Pillow (images).  The file system is modelled as a tree
    of named entries, every [pathlib] call the script makes as a function
    on that tree, and Pillow as an interface ([Pillow] below) whose
    decoder, frame selection, mode conversion and PNG encoder are
    arbitrary functions that may raise. *)

From Stdlib Require Import List String Ascii ZArith Lia Bool.
From Stdlib Require Import DecimalString.
Import ListNotations.
Open Scope string_scope.
Open Scope list_scope.
Open Scope Z_scope.

(** [a + b] on Python strings *)
Infix "^^" := String.append (at level 60, right associativity).

(** ** Strings, as [pathlib] uses them *)

Module Str.

(** [c.lower()] on one character.  Only A-Z are changed; bytes above 127
    are the code units of a character outside ASCII, none of which lowers
    to one of the letters of ".tif" or ".tiff". *)
Definition lower_ascii (c : ascii) : ascii :=
  let n := N_of_ascii c in
  if ((65 <=? n) && (n <=? 90))%N then ascii_of_N (n + 32) else c.

(** [s.lower()] *)
Fixpoint lower (s : string) : string :=
  match s with
  | EmptyString => EmptyString
  | String c s' => String (lower_ascii c) (lower s')
  end.

(** [len(s)] *)
Definition len (s : string) : Z := Z.of_nat (String.length s).

(** The index of the last [c] in [s], counted from [i]; -1 when there is
    none. *)
Fixpoint rfind_from (c : ascii) (s : string) (i : Z) : Z :=
  match s with
  | EmptyString => -1
  | String a s' =>
      let r := rfind_from c s' (i + 1) in
      if 0 <=? r then r else if Ascii.eqb a c then i else -1
  end.

(** [s.rfind(c)] *)
Definition rfind (s : string) (c : ascii) : Z := rfind_from c s 0.

(** [s[i:]] for [0 <= i] *)
Fixpoint drop (n : nat) (s : string) : string :=
  match n, s with
  | O, _ => s
  | S n', String _ s' => drop n' s'
  | S _, EmptyString => EmptyString
  end.

(** [s[:i]] for [0 <= i] *)
Fixpoint take (n : nat) (s : string) : string :=
  match n, s with
  | O, _ => EmptyString
  | S n', String a s' => String a (take n' s')
  | S _, EmptyString => EmptyString
  end.

(** [sep.join(l)] *)
Fixpoint join (sep : string) (l : list string) : string :=
  match l with
  | [] => ""
  | [x] => x
  | x :: l' => x ^^ sep ^^ join sep l'
  end.

(** [str(n)] for an integer *)
Definition of_Z (n : Z) : string := NilZero.string_of_int (Z.to_int n).

(** [x in s] for strings: [x] occurs somewhere in [s]. *)
Definition occurs_in (x s : string) : Prop :=
  exists pre post, s = pre ^^ x ^^ post.

End Str.

(** ** Pure paths

    A path is its list of components; every path of the script is
    relative to the working directory. *)

Definition path := list string.

(** An exception object: its class and what [str(e)] gives. *)
Record Exception := mkExc { exc_class : string; exc_str : string }.

Definition ValueError := mkExc "ValueError".
Definition FileNotFoundError := mkExc "FileNotFoundError".
Definition FileExistsError := mkExc "FileExistsError".
Definition NotADirectoryError := mkExc "NotADirectoryError".
Definition IsADirectoryError := mkExc "IsADirectoryError".

Module PurePath.

(** [str(p)] *)
Definition str (p : path) : string :=
  match p with
  | [] => "."
  | _ => Str.join "/" p
  end.

(** [p.name] *)
Definition name (p : path) : string := last p "".

(** [p.parent] *)
Definition parent (p : path) : path := removelast p.

(** The suffix of a file name: what starts at its last dot, unless that dot
    is the first or the last character. *)
Definition suffix_of_name (nm : string) : string :=
  let i := Str.rfind nm "." in
  if (0 <? i) && (i <? Str.len nm - 1) then Str.drop (Z.to_nat i) nm else "".

(** [p.suffix] *)
Definition suffix (p : path) : string := suffix_of_name (name p).

(** [name[:-len(old_suffix)]], the name without its suffix *)
Definition stem_of_name (nm : string) : string :=
  Str.take (String.length nm - String.length (suffix_of_name nm)) nm.

(** [p.with_suffix(sfx)], for a well-formed [sfx] such as ".png" *)
Definition with_suffix (p : path) (sfx : string) : Exception + path :=
  let nm := name p in
  if String.eqb nm "" then inl (ValueError (str p ^^ " has an empty name"))
  else
    let old_suffix := suffix p in
    let nm' := if String.eqb old_suffix "" then nm ^^ sfx
               else stem_of_name nm ^^ sfx in
    inr (parent p ++ [nm']).

(** [other] stripped from the front of [p], if it is a prefix of it *)
Fixpoint strip_prefix (other p : path) : option path :=
  match other, p with
  | [], _ => Some p
  | x :: other', y :: p' =>
      if String.eqb x y then strip_prefix other' p' else None
  | _ :: _, [] => None
  end.

(** [p.relative_to(other)] *)
Definition relative_to (p other : path) : Exception + path :=
  match strip_prefix other p with
  | Some rel => inr rel
  | None =>
      inl (ValueError (str p ^^ " is not in the subpath of " ^^ str other))
  end.

(** [a / b] for a relative [b] *)
Definition joinpath (a b : path) : path := a ++ b.

End PurePath.

(** ** The file system

    A tree: a regular file with its bytes, or a directory with its entries
    in the order [scandir] lists them.  Symbolic links and permissions are
    not modelled. *)

Definition content := string.

#[local] Unset Elimination Schemes.
Inductive node :=
| File (c : content)
| Dir (es : list (string * node)).
#[local] Set Elimination Schemes.

Module FS.

(** The entry called [x] of a directory listing *)
Fixpoint assoc (x : string) (es : list (string * node)) : option node :=
  match es with
  | [] => None
  | (y, c) :: es' => if String.eqb x y then Some c else assoc x es'
  end.

(** The listing with the entry [x] set to [v]: replaced where it is, or
    added at the end *)
Fixpoint set_entry (x : string) (v : node) (es : list (string * node))
  : list (string * node) :=
  match es with
  | [] => [(x, v)]
  | (y, c) :: es' =>
      if String.eqb x y then (y, v) :: es' else (y, c) :: set_entry x v es'
  end.

(** The listing without the entry [x] *)
Fixpoint del_entry (x : string) (es : list (string * node))
  : list (string * node) :=
  match es with
  | [] => []
  | (y, c) :: es' =>
      if String.eqb x y then es' else (y, c) :: del_entry x es'
  end.

(** What the path [p] names below [n] *)
Fixpoint lookup (p : path) (n : node) {struct p} : option node :=
  match p with
  | [] => Some n
  | x :: p' =>
      match n with
      | Dir es =>
          match assoc x es with
          | Some c => lookup p' c
          | None => None
          end
      | File _ => None
      end
  end.

(** [p.exists()] *)
Definition exists_ (p : path) (n : node) : bool :=
  match lookup p n with Some _ => true | None => false end.

(** [p.is_file()] *)
Definition is_file (p : path) (n : node) : bool :=
  match lookup p n with Some (File _) => true | _ => false end.

(** [p.is_dir()] *)
Definition is_dir (p : path) (n : node) : bool :=
  match lookup p n with Some (Dir _) => true | _ => false end.

(** The chain of fresh directories [p] below a fresh directory *)
Fixpoint new_chain (p : path) : node :=
  match p with
  | [] => Dir []
  | x :: p' => Dir [(x, new_chain p')]
  end.

(** [p.mkdir(parents=True, exist_ok=True)]: every missing directory of
    the chain is created; a regular file on the way makes it fail. *)
Fixpoint mkdir_p (p : path) (n : node) {struct p} : Exception + node :=
  match n with
  | File _ =>
      match p with
      | [] => inl (FileExistsError "File exists")
      | _ :: _ => inl (NotADirectoryError "Not a directory")
      end
  | Dir es =>
      match p with
      | [] => inr n
      | x :: p' =>
          match assoc x es with
          | Some c =>
              match mkdir_p p' c with
              | inl e => inl e
              | inr c' => inr (Dir (set_entry x c' es))
              end
          | None => inr (Dir (set_entry x (new_chain p') es))
          end
      end
  end.

(** [open(p, "w+b")] followed by writing [c]: the file is created or
    replaced; its directory has to be there already. *)
Fixpoint write_file (p : path) (c : content) (n : node) {struct p}
  : Exception + node :=
  match n with
  | File _ =>
      match p with
      | [] => inr (File c)
      | _ :: _ => inl (NotADirectoryError "Not a directory")
      end
  | Dir es =>
      match p with
      | [] => inl (IsADirectoryError "Is a directory")
      | x :: p' =>
          match assoc x es with
          | Some ch =>
              match write_file p' c ch with
              | inl e => inl e
              | inr ch' => inr (Dir (set_entry x ch' es))
              end
          | None =>
              match p' with
              | [] => inr (Dir (set_entry x (File c) es))
              | _ :: _ => inl (FileNotFoundError "No such file or directory")
              end
          end
      end
  end.

(** [os.remove(p)] where [p] is a regular file; otherwise nothing changes *)
Fixpoint remove_file (p : path) (n : node) {struct p} : node :=
  match p, n with
  | x :: p', Dir es =>
      match assoc x es with
      | Some ch =>
          match p', ch with
          | [], File _ => Dir (del_entry x es)
          | [], Dir _ => n
          | _ :: _, _ => Dir (set_entry x (remove_file p' ch) es)
          end
      | None => n
      end
  | _, _ => n
  end.

(** [p.rglob("*")], relative to [p]: the entries of the directory, then
    those of each of its subdirectories in turn.  A path that is not a
    directory yields nothing. *)
Fixpoint rglob (n : node) : list path :=
  match n with
  | File _ => []
  | Dir es =>
      map (fun e => [fst e]) es
      ++ flat_map (fun e => map (cons (fst e)) (rglob (snd e))) es
  end.

(** Directory, regular file or nothing *)
Definition kind (o : option node) : option bool :=
  match o with
  | None => None
  | Some (File _) => Some false
  | Some (Dir _) => Some true
  end.

(** [p] and [q] part ways: after a common start they go on with different
    names, so neither lies on the other. *)
Fixpoint diverge (p q : path) : bool :=
  match p, q with
  | x :: p', y :: q' => if String.eqb x y then diverge p' q' else true
  | _, _ => false
  end.

(** Whatever [n] holds, [n'] holds with the same kind. *)
Definition keeps (n n' : node) : Prop :=
  forall q, lookup q n <> None -> kind (lookup q n') = kind (lookup q n).

(** One entry per name, in every directory of the tree *)
Fixpoint wf (n : node) : Prop :=
  match n with
  | File _ => True
  | Dir es =>
      NoDup (map fst es)
      /\ (fix all (l : list (string * node)) : Prop :=
            match l with
            | [] => True
            | e :: l' => wf (snd e) /\ all l'
            end) es
  end.

End FS.

(** ** Pillow

    The image library, as far as [convert_one] uses it.  Every operation
    is a function that either raises or gives its result; nothing more is
    assumed about them. *)

Class Pillow := {
  (** a decoded image *)
  image : Type;
  (** [im.mode] *)
  mode : image -> string;
  (** what [Image.open] makes of a file's bytes *)
  decode : content -> Exception + image;
  (** [im.seek(frame)] *)
  seek : image -> Z -> Exception + image;
  (** [im.convert(mode)] *)
  convert : image -> string -> Exception + image;
  (** the encoder behind [im.save(..., format="PNG", optimize=...)]: the
      bytes of the file, or an error together with the bytes written
      before it *)
  encode_png : image -> bool -> Exception * content + content
}.

(** ** The state of a run and the monad of the script *)

(** The calls that leave the script, in the order they are made *)
Inductive event {P : Pillow} :=
| EvMkdir (p : path)
| EvOpen (p : path)
| EvSeek (frame : Z)
| EvConvert (md : string)
| EvSave (im : image) (p : path)
| EvClose (p : path).
Arguments EvMkdir {P} p.
Arguments EvOpen {P} p.
Arguments EvSeek {P} frame.
Arguments EvConvert {P} md.
Arguments EvSave {P} im p.
Arguments EvClose {P} p.

(** The world the script runs in: the tree below the working directory,
    the absolute path of that directory, the lines printed so far and the
    calls made so far. *)
Record world {P : Pillow} := mkWorld {
  fs : node;
  cwd : path;
  stdout : list string;
  calls : list event
}.
Arguments mkWorld {P} fs cwd stdout calls.
Arguments fs {P} w.
Arguments cwd {P} w.
Arguments stdout {P} w.
Arguments calls {P} w.

(** What a [raise] carries: an instance of [Exception], which
    [except Exception] catches, or [SystemExit], which it does not. *)
Inductive raised :=
| Exc (e : Exception)
| SystemExit (msg : string).

Inductive result (A : Type) :=
| Ok (a : A)
| Raise (r : raised).
Arguments Ok {A} a.
Arguments Raise {A} r.

Section Script.

Context {P : Pillow}.

Definition M (A : Type) : Type := world -> result A * world.

Definition ret {A} (a : A) : M A := fun w => (Ok a, w).

Definition bind {A B} (m : M A) (k : A -> M B) : M B :=
  fun w =>
    match m w with
    | (Ok a, w') => k a w'
    | (Raise r, w') => (Raise r, w')
    end.

Definition raise {A} (r : raised) : M A := fun w => (Raise r, w).

(** A library call that raises an [Exception] or returns *)
Definition lift {A} (x : Exception + A) : M A :=
  match x with
  | inl e => raise (Exc e)
  | inr a => ret a
  end.

Definition get_fs : M node := fun w => (Ok (fs w), w).

Definition put_fs (n : node) : M unit :=
  fun w => (Ok tt, mkWorld n (cwd w) (stdout w) (calls w)).

Definition log (e : event) : M unit :=
  fun w => (Ok tt, mkWorld (fs w) (cwd w) (stdout w) (calls w ++ [e])).

(** [print(line)] *)
Definition print (line : string) : M unit :=
  fun w => (Ok tt, mkWorld (fs w) (cwd w) (stdout w ++ [line]) (calls w)).

(** [try: m  except Exception as e: h e] *)
Definition try_except {A} (m : M A) (h : Exception -> M A) : M A :=
  fun w =>
    match m w with
    | (Raise (Exc e), w') => h e w'
    | other => other
    end.

(** [m] followed by [cleanup], whether [m] raises or not: what leaving a
    [with] block does *)
Definition finally_ {A} (m : M A) (cleanup : M unit) : M A :=
  fun w =>
    match m w with
    | (r, w') =>
        match cleanup w' with
        | (Ok _, w'') => (r, w'')
        | (Raise x, w'') => (Raise x, w'')
        end
    end.

(** [for x in l: s = body x s] *)
Fixpoint for_each {A S} (l : list A) (body : A -> S -> M S) (s : S) : M S :=
  match l with
  | [] => ret s
  | x :: l' => bind (body x s) (for_each l' body)
  end.

End Script.

Notation "x <- m ;; k" := (bind m (fun x => k))
  (at level 61, m at next level, right associativity).
Notation "m ;; k" := (bind m (fun _ => k))
  (at level 61, right associativity).

(** [x in l] for a tuple of strings *)
Definition in_ (x : string) (l : list string) : bool :=
  existsb (String.eqb x) l.

(** ** [pathlib.Path] and [PIL.Image] on the world *)

Section Calls.

Context {P : Pillow}.

(** [p.exists()] *)
Definition Path_exists (p : path) : M bool :=
  n <- get_fs ;; ret (FS.exists_ p n).

(** [p.is_file()] *)
Definition Path_is_file (p : path) : M bool :=
  n <- get_fs ;; ret (FS.is_file p n).

(** [p.resolve()], printed: the absolute path *)
Definition Path_resolve (p : path) : M string :=
  fun w => (Ok ("/" ^^ Str.join "/" (cwd w ++ p)), w).

(** [p.rglob("*")].  The paths are those of the tree as it is when the
    loop starts; the loop body writes below [OUT_DIR] only and leaves the
    tree below [IN_DIR] as it is (lemma [loop_body_keeps_input]). *)
Definition Path_rglob (p : path) : M (list path) :=
  n <- get_fs ;;
  ret (match FS.lookup p n with
       | Some d => map (PurePath.joinpath p) (FS.rglob d)
       | None => []
       end).

(** [p.mkdir(parents=True, exist_ok=True)] *)
Definition Path_mkdir (p : path) : M unit :=
  log (EvMkdir p) ;;
  n <- get_fs ;;
  n' <- lift (FS.mkdir_p p n) ;;
  put_fs n'.

(** [Image.open(src)] *)
Definition Image_open (src : path) : M image :=
  log (EvOpen src) ;;
  n <- get_fs ;;
  match FS.lookup src n with
  | Some (File c) => lift (decode c)
  | Some (Dir _) => raise (Exc (IsADirectoryError "Is a directory"))
  | None => raise (Exc (FileNotFoundError "No such file or directory"))
  end.

(** [im.seek(frame)] *)
Definition Image_seek (im : image) (frame : Z) : M image :=
  log (EvSeek frame) ;; lift (seek im frame).

(** [im.convert(md)] *)
Definition Image_convert (im : image) (md : string) : M image :=
  log (EvConvert md) ;; lift (convert im md).

(** [im.save(dst, format="PNG", optimize=opt)]: the file is opened for
    writing, then encoded into; when the encoder raises, a file that this
    call created is removed again. *)
Definition Image_save (im : image) (dst : path) (opt : bool) : M unit :=
  log (EvSave im dst) ;;
  n <- get_fs ;;
  let created := negb (FS.exists_ dst n) in
  n1 <- lift (FS.write_file dst "" n) ;;
  put_fs n1 ;;
  match encode_png im opt with
  | inr bytes =>
      n2 <- lift (FS.write_file dst bytes n1) ;;
      put_fs n2
  | inl (e, partial) =>
      (if created then put_fs (FS.remove_file dst n1)
       else n2 <- lift (FS.write_file dst partial n1) ;; put_fs n2) ;;
      raise (Exc e)
  end.

(** Leaving [with Image.open(src) as im:] closes the file. *)
Definition Image_close (src : path) : M unit := log (EvClose src).

End Calls.

(** ** The script *)

Definition IN_DIR : path := ["public"; "patterns"].
Definition OUT_DIR : path := ["public"; "patterns_png"].
Definition SKIP_EXISTING : bool := true.

(** The four counters of [main] *)
Record tally := mkTally {
  count_total : Z;
  count_done : Z;
  count_skipped : Z;
  count_failed : Z
}.

Section Program.

Context {P : Pillow}.

Definition convert_one (src dst : path) : M unit :=
  Path_mkdir (PurePath.parent dst) ;;
  im <- Image_open src ;;
  finally_
    (im <- try_except (Image_seek im 0) (fun _ => ret im) ;;
     im <- (if negb (in_ (mode im) ["RGB"; "RGBA"])
            then Image_convert im "RGB"
            else ret im) ;;
     Image_save im dst true)
    (Image_close src).

(** Where [src] is converted to: the two lines of the loop of [main] that
    compute [rel] and [dst]. *)
Definition destination (src : path) : Exception + path :=
  match PurePath.relative_to src IN_DIR with
  | inl e => inl e
  | inr rel =>
      match PurePath.with_suffix rel ".png" with
      | inl e => inl e
      | inr png => inr (PurePath.joinpath OUT_DIR png)
      end
  end.

(** One turn of the loop of [main], from the counters before it to the
    counters after it; [continue] is the return of the counters. *)
Definition loop_body (src : path) (t : tally) : M tally :=
  f <- Path_is_file src ;;
  if negb f then ret t
  else if negb (in_ (Str.lower (PurePath.suffix src)) [".tif"; ".tiff"])
  then ret t
  else
    let t := mkTally (count_total t + 1) (count_done t)
                     (count_skipped t) (count_failed t) in
    dst <- lift (destination src) ;;
    e <- (if SKIP_EXISTING then Path_exists dst else ret false) ;;
    if e then
      ret (mkTally (count_total t) (count_done t)
                   (count_skipped t + 1) (count_failed t))
    else
      try_except
        (convert_one src dst ;;
         ret (mkTally (count_total t) (count_done t + 1)
                      (count_skipped t) (count_failed t)))
        (fun e =>
           let t := mkTally (count_total t) (count_done t)
                            (count_skipped t) (count_failed t + 1) in
           print ("[FAIL] " ^^ PurePath.str src ^^ " -> " ^^ PurePath.str dst
                  ^^ " | " ^^ exc_str e) ;;
           ret t).

(** [main()].  The Python function returns nothing; the counters it ends
    with are returned here so that statements can name them. *)
Definition main : M tally :=
  e <- Path_exists IN_DIR ;;
  if negb e then
    r <- Path_resolve IN_DIR ;;
    raise (SystemExit ("[ERROR] Input dir not found: " ^^ r))
  else
    srcs <- Path_rglob IN_DIR ;;
    t <- for_each srcs loop_body (mkTally 0 0 0 0) ;;
    print "=== TIFF -> PNG Done ===" ;;
    r_in <- Path_resolve IN_DIR ;;
    print ("Input dir : " ^^ r_in) ;;
    r_out <- Path_resolve OUT_DIR ;;
    print ("Output dir: " ^^ r_out) ;;
    print ("Total TIFF: " ^^ Str.of_Z (count_total t)) ;;
    print ("Converted : " ^^ Str.of_Z (count_done t)) ;;
    print ("Skipped   : " ^^ Str.of_Z (count_skipped t)) ;;
    print ("Failed    : " ^^ Str.of_Z (count_failed t)) ;;
    ret t.

End Program.

(** ** Notions the statements use *)

(** A file name with a TIFF extension *)
Definition tiff_name (nm : string) : bool :=
  in_ (Str.lower (PurePath.suffix_of_name nm)) [".tif"; ".tiff"].

(** A candidate: a regular file with a TIFF extension *)
Definition is_candidate (src : path) (n : node) : bool :=
  FS.is_file src n && tiff_name (PurePath.name src).

(** The number of regular files with a TIFF extension anywhere below [n] *)
Fixpoint count_tiff (n : node) : nat :=
  match n with
  | File _ => 0%nat
  | Dir es =>
      list_sum
        (map (fun e =>
                match snd e with
                | File _ => if tiff_name (fst e) then 1%nat else 0%nat
                | Dir _ => count_tiff (snd e)
                end) es)
  end.

(** How many of the paths [rels], taken below [root], are candidates *)
Definition ncand (root : node) (rels : list path) : nat :=
  List.length (filter (fun rel => is_candidate rel root) rels).

(** The counters before any candidate was seen *)
Definition tally0 : tally := mkTally 0 0 0 0.

(** [q] is [p] or one of its ancestors. *)
Definition is_prefix (q p : path) : Prop := exists r, p = q ++ r.

(** [n'] is [n] with changes at [base] and below only, and nothing that
    [n] holds is lost or changes its kind. *)
Definition changed_below (base : path) (n n' : node) : Prop :=
  FS.keeps n n'
  /\ forall q, FS.diverge base q = true -> FS.lookup q n' = FS.lookup q n.

(** The counters after one more candidate was converted, skipped, failed *)
Definition converted_one (t : tally) : tally :=
  mkTally (count_total t + 1) (count_done t + 1) (count_skipped t) (count_failed t).
Definition skipped_one (t : tally) : tally :=
  mkTally (count_total t + 1) (count_done t) (count_skipped t + 1) (count_failed t).
Definition failed_one (t : tally) : tally :=
  mkTally (count_total t + 1) (count_done t) (count_skipped t) (count_failed t + 1).

(** The line printed for a failed conversion *)
Definition fail_line (src dst : path) (e : Exception) : string :=
  "[FAIL] " ^^ PurePath.str src ^^ " -> " ^^ PurePath.str dst
  ^^ " | " ^^ exc_str e.

(** The seven lines of the report *)
Definition report (cwd : path) (t : tally) : list string :=
  [ "=== TIFF -> PNG Done ===";
    "Input dir : " ^^ "/" ^^ Str.join "/" (cwd ++ IN_DIR);
    "Output dir: " ^^ "/" ^^ Str.join "/" (cwd ++ OUT_DIR);
    "Total TIFF: " ^^ Str.of_Z (count_total t);
    "Converted : " ^^ Str.of_Z (count_done t);
    "Skipped   : " ^^ Str.of_Z (count_skipped t);
    "Failed    : " ^^ Str.of_Z (count_failed t) ].

Section Shape.

Context {P : Pillow}.

(** [m] changes the tree as [I] allows, prints nothing, only adds to the
    calls, and raises nothing but instances of [Exception]. *)
Definition fs_rel (I : node -> node -> Prop) {A} (m : M A) : Prop :=
  forall w r w', m w = (r, w') ->
    I (fs w) (fs w')
    /\ cwd w' = cwd w
    /\ stdout w' = stdout w
    /\ (exists l, calls w' = calls w ++ l)
    /\ (forall msg, r <> Raise (SystemExit msg)).

(** [im.mode in ("RGB", "RGBA")] *)
Definition mode_ok (im : image) : bool := in_ (mode im) ["RGB"; "RGBA"].

(** The block of the [with] statement of [convert_one] from the mode check
    on, for the image [im] that the frame selection left *)
Definition from_mode_check (dst : path) (im : image) : M unit :=
  im <- (if negb (in_ (mode im) ["RGB"; "RGBA"])
         then Image_convert im "RGB"
         else ret im) ;;
  Image_save im dst true.

(** The [with] statement of [convert_one] once [Image.open] has returned
    [im]: its block, and the closing of the file *)
Definition with_block (src dst : path) (im : image) : M unit :=
  finally_
    (im <- try_except (Image_seek im 0) (fun _ => ret im) ;;
     from_mode_check dst im)
    (Image_close src).

(** The image after [try: im.seek(0) except Exception: pass] *)
Definition after_seek (im : image) : image :=
  match seek im 0 with
  | inr im' => im'
  | inl _ => im
  end.

(** The world with one more call recorded *)
Definition logged (w : world) (l : list event) : world :=
  mkWorld (fs w) (cwd w) (stdout w) (calls w ++ l).

(** The world with another tree *)
Definition with_fs (w : world) (n : node) : world :=
  mkWorld n (cwd w) (stdout w) (calls w).

(** The world with more lines printed *)
Definition printed (w : world) (l : list string) : world :=
  mkWorld (fs w) (cwd w) (stdout w ++ l) (calls w).

End Shape.

(** ** A small Pillow to run the script on

    The first byte of a file says what it decodes to: [R] an RGB image,
    [A] an RGBA image, [P] a palette image, [S] an RGB image of a format
    without frame seeking, [X] an RGB image that the PNG encoder chokes
    on; anything else is not an image. *)

Record toy_image := mkToy {
  toy_mode : string;
  toy_seekable : bool;
  toy_encodable : bool;
  toy_pixels : string
}.

Definition toy_decode (c : content) : Exception + toy_image :=
  match c with
  | String "R" px => inr (mkToy "RGB" true true px)
  | String "A" px => inr (mkToy "RGBA" true true px)
  | String "P" px => inr (mkToy "P" true true px)
  | String "S" px => inr (mkToy "RGB" false true px)
  | String "X" px => inr (mkToy "RGB" true false px)
  | _ => inl (mkExc "UnidentifiedImageError" "cannot identify image file")
  end.

Definition toy_seek (im : toy_image) (frame : Z) : Exception + toy_image :=
  if toy_seekable im && (frame =? 0) then inr im
  else inl (mkExc "EOFError" "no more images in file").

Definition toy_convert (im : toy_image) (md : string) : Exception + toy_image :=
  inr (mkToy md (toy_seekable im) (toy_encodable im) (toy_pixels im)).

Definition toy_encode (im : toy_image) (opt : bool)
  : Exception * content + content :=
  if toy_encodable im then inr ("PNG " ^^ toy_mode im ^^ " " ^^ toy_pixels im)
  else inl (mkExc "OSError" "encoder error", "PNG").

#[export] Instance ToyPillow : Pillow := {
  image := toy_image;
  mode := toy_mode;
  decode := toy_decode;
  seek := toy_seek;
  convert := toy_convert;
  encode_png := toy_encode
}.

(** A world with the given tree, run from the root directory, with
    nothing printed and no call made yet *)
Definition fresh (n : node) : world := mkWorld n [] [] [].

(** [public/patterns] holds the given entries. *)
Definition tree_with (es : list (string * node)) : node :=
  Dir [("public", Dir [("patterns", Dir es)])].

(** The input path is a regular file. *)
Definition tree_file_root : node :=
  Dir [("public", Dir [("patterns", File "not a directory")])].

(** One good image, a second one with the same destination, and a file
    that is not an image *)
Definition tree_mixed : node :=
  tree_with [("a.tif", File "Rxx"); ("a.tiff", File "Ayy");
             ("bad.tif", File "zz")].

(** One image, and a regular file where the output directory should be *)
Definition tree_blocked : node :=
  Dir [("public", Dir [("patterns", Dir [("a.tif", File "Rxx")]);
                       ("patterns_png", File "in the way")])].

(** One image whose destination is there already *)
Definition tree_converted : node :=
  Dir [("public", Dir [("patterns", Dir [("a.tif", File "Rxx")]);
                       ("patterns_png", Dir [("a.png", File "sentinel")])])].

(** Two good images with the same destination *)
Definition tree_twins : node :=
  tree_with [("a.tif", File "Rxx"); ("a.tiff", File "Ayy")].

(** Images of several modes, some below a subdirectory, and other files *)
Definition tree_sample : node :=
  tree_with [("a.tif", File "Rxx");
             ("sub", Dir [("b.TIFF", File "Pyy"); ("n.txt", File "R");
                          ("s.Tif", File "Szz")]);
             ("x.tiff", File "Xq");
             ("dir.tif", Dir [])].

(** An input directory without a TIFF file: a note, a hidden file called
    [.tif], and a directory with a TIFF name *)
Definition tree_no_tiff : node :=
  tree_with [("notes.txt", File "Rxx"); (".tif", File "Rxx");
             ("old.tiff", Dir [])].

(** Every regular file of [n] is in [n'] with the same bytes. *)
Definition keeps_files (n n' : node) : Prop :=
  forall q c, FS.lookup q n = Some (File c) -> FS.lookup q n' = Some (File c).

(** [n'] is [n] wherever a path parts ways with [base]. *)
Definition same_outside (base : path) (n n' : node) : Prop :=
  forall q, FS.diverge base q = true -> FS.lookup q n' = FS.lookup q n.

(** * Properties *)

(** ** The file system *)

Module FSFacts.
Import FS.

Lemma assoc_set_entry_eq x v es : assoc x (set_entry x v es) = Some v.
Proof.
  induction es as [|[y c] es IH]; simpl.
  - now rewrite String.eqb_refl.
  - destruct (String.eqb x y) eqn:E; simpl; rewrite E; auto.
Qed.

Lemma assoc_set_entry_neq x y v es :
  x <> y -> assoc y (set_entry x v es) = assoc y es.
Proof.
  intros N. induction es as [|[z c] es IH]; simpl.
  - destruct (String.eqb y x) eqn:E; auto.
    apply String.eqb_eq in E. congruence.
  - destruct (String.eqb x z) eqn:E; simpl.
    + apply String.eqb_eq in E. subst z.
      destruct (String.eqb y x) eqn:E2; auto.
      apply String.eqb_eq in E2. congruence.
    + now rewrite IH.
Qed.

Lemma assoc_del_entry_neq x y es :
  x <> y -> assoc y (del_entry x es) = assoc y es.
Proof.
  intros N. induction es as [|[z c] es IH]; simpl; auto.
  destruct (String.eqb x z) eqn:E; simpl.
  - apply String.eqb_eq in E. subst z.
    destruct (String.eqb y x) eqn:E2; auto.
    apply String.eqb_eq in E2. congruence.
  - now rewrite IH.
Qed.

Lemma lookup_set_entry_eq x v es q :
  lookup (x :: q) (Dir (set_entry x v es)) = lookup q v.
Proof. simpl. now rewrite assoc_set_entry_eq. Qed.

Lemma lookup_set_entry_neq x y v es q :
  x <> y -> lookup (y :: q) (Dir (set_entry x v es)) = lookup (y :: q) (Dir es).
Proof. intros N. simpl. now rewrite assoc_set_entry_neq. Qed.

Lemma lookup_app p : forall q n,
  lookup (p ++ q) n =
  match lookup p n with Some m => lookup q m | None => None end.
Proof.
  induction p as [|x p IH]; intros q n; simpl; auto.
  destruct n as [c|es]; auto.
  destruct (assoc x es); auto.
Qed.

Lemma lookup_file_nil c q : lookup q (File c) <> None -> q = [].
Proof. destruct q; simpl; congruence. Qed.

Lemma diverge_app p : forall q r, diverge p q = true -> diverge (p ++ r) q = true.
Proof.
  induction p as [|x p IH]; intros [|y q] r; simpl; try discriminate.
  destruct (String.eqb x y); auto.
Qed.

Lemma keeps_refl n : keeps n n.
Proof. now intros q _. Qed.

Lemma keeps_trans a b c : keeps a b -> keeps b c -> keeps a c.
Proof.
  intros H1 H2 q E. rewrite <- (H1 q E). apply H2.
  specialize (H1 q E). destruct (lookup q b); try congruence.
  destruct (lookup q a) as [[|]|]; simpl in *; congruence.
Qed.

Lemma keeps_exists a b q : keeps a b -> exists_ q a = true -> exists_ q b = true.
Proof.
  unfold exists_. intros K E.
  assert (N : lookup q a <> None) by (destruct (lookup q a); congruence).
  specialize (K q N). destruct (lookup q b); auto.
  destruct (lookup q a) as [[|]|]; simpl in *; congruence.
Qed.

Lemma keeps_is_dir a b q : keeps a b -> is_dir q a = true -> is_dir q b = true.
Proof.
  unfold is_dir. intros K E.
  assert (N : lookup q a <> None) by (destruct (lookup q a); congruence).
  specialize (K q N).
  destruct (lookup q a) as [[|]|]; try discriminate.
  destruct (lookup q b) as [[|]|]; simpl in *; congruence.
Qed.

Lemma keeps_is_file a b q : keeps a b -> is_file q a = true -> is_file q b = true.
Proof.
  unfold is_file. intros K E.
  assert (N : lookup q a <> None) by (destruct (lookup q a); congruence).
  specialize (K q N).
  destruct (lookup q a) as [[|]|]; try discriminate.
  destruct (lookup q b) as [[|]|]; simpl in *; congruence.
Qed.

(** *** [mkdir_p] *)

Lemma new_chain_is_dir p : is_dir p (new_chain p) = true.
Proof.
  unfold is_dir. induction p as [|x p IH]; simpl; auto.
  now rewrite String.eqb_refl.
Qed.

Lemma new_chain_diverge p : forall q,
  diverge p q = true -> lookup q (new_chain p) = None.
Proof.
  induction p as [|x p IH]; intros [|y q]; simpl; try discriminate.
  rewrite (String.eqb_sym y x).
  destruct (String.eqb x y); auto.
Qed.

Lemma mkdir_p_is_dir p : forall n n',
  mkdir_p p n = inr n' -> is_dir p n' = true.
Proof.
  unfold is_dir.
  induction p as [|x p IH]; intros [c|es] n' H; simpl in H; try discriminate.
  - now inversion H.
  - destruct (assoc x es) as [ch|] eqn:A.
    + destruct (mkdir_p p ch) as [e|ch'] eqn:E; inversion H; subst.
      rewrite lookup_set_entry_eq. eauto.
    + inversion H; subst. rewrite lookup_set_entry_eq.
      apply new_chain_is_dir.
Qed.

Lemma mkdir_p_frame p : forall n n' q,
  mkdir_p p n = inr n' -> diverge p q = true -> lookup q n' = lookup q n.
Proof.
  induction p as [|x p IH]; intros [c|es] n' [|y q] H D;
    simpl in H, D; try discriminate.
  destruct (String.eqb x y) eqn:E.
  - apply String.eqb_eq in E. subst y.
    destruct (assoc x es) as [ch|] eqn:A.
    + destruct (mkdir_p p ch) as [e|ch'] eqn:E; inversion H; subst.
      rewrite lookup_set_entry_eq. simpl. rewrite A. eauto.
    + inversion H; subst. rewrite lookup_set_entry_eq. simpl. rewrite A.
      now apply new_chain_diverge.
  - apply String.eqb_neq in E.
    destruct (assoc x es) as [ch|] eqn:A.
    + destruct (mkdir_p p ch) as [e|ch'] eqn:E'; inversion H; subst.
      now apply lookup_set_entry_neq.
    + inversion H; subst. now apply lookup_set_entry_neq.
Qed.

Lemma mkdir_p_keeps p : forall n n', mkdir_p p n = inr n' -> keeps n n'.
Proof.
  induction p as [|x p IH]; intros [c|es] n' H; simpl in H; try discriminate.
  - inversion H. apply keeps_refl.
  - intros [|y q] N; [destruct (assoc x es) as [ch|];
      [destruct (mkdir_p p ch)|]; inversion H; reflexivity|].
    destruct (String.eqb x y) eqn:E.
    + apply String.eqb_eq in E. subst y.
      destruct (assoc x es) as [ch|] eqn:A.
      * destruct (mkdir_p p ch) as [e|ch'] eqn:E; inversion H; subst.
        rewrite lookup_set_entry_eq. simpl in *. rewrite A in *.
        eapply IH; eauto.
      * simpl in N. rewrite A in N. congruence.
    + apply String.eqb_neq in E.
      destruct (assoc x es) as [ch|] eqn:A.
      * destruct (mkdir_p p ch) as [e|ch'] eqn:E'; inversion H; subst.
        now rewrite lookup_set_entry_neq.
      * inversion H; subst. now rewrite lookup_set_entry_neq.
Qed.

(** [mkdir_p] fails exactly when a regular file lies on the chain. *)
Lemma mkdir_p_fails p : forall n e,
  mkdir_p p n = inl e -> exists q r, p = q ++ r /\ is_file q n = true.
Proof.
  unfold is_file.
  induction p as [|x p IH]; intros [c|es] e H; simpl in H; try discriminate.
  - exists [], []. auto.
  - exists [], (x :: p). auto.
  - destruct (assoc x es) as [ch|] eqn:A; try discriminate.
    destruct (mkdir_p p ch) as [e'|ch'] eqn:E; inversion H; subst.
    destruct (IH _ _ E) as (q & r & -> & F).
    exists (x :: q), r. split; auto. simpl. now rewrite A.
Qed.

Lemma mkdir_p_succeeds p : forall n,
  (forall q r, p = q ++ r -> is_file q n = false) ->
  exists n', mkdir_p p n = inr n'.
Proof.
  intros n H. destruct (mkdir_p p n) as [e|n'] eqn:E; eauto.
  destruct (mkdir_p_fails _ _ _ E) as (q & r & Hp & F).
  rewrite (H q r Hp) in F. discriminate.
Qed.

(** *** [write_file] *)

Lemma write_file_is_file p c : forall n n',
  write_file p c n = inr n' -> lookup p n' = Some (File c).
Proof.
  induction p as [|x p IH]; intros [c0|es] n' H; simpl in H; try discriminate.
  - now inversion H.
  - destruct (assoc x es) as [ch|] eqn:A.
    + destruct (write_file p c ch) as [e|ch'] eqn:E; inversion H; subst.
      rewrite lookup_set_entry_eq. eauto.
    + destruct p; inversion H; subst.
      now rewrite lookup_set_entry_eq.
Qed.

Lemma write_file_frame p c : forall n n' q,
  write_file p c n = inr n' -> diverge p q = true -> lookup q n' = lookup q n.
Proof.
  induction p as [|x p IH]; intros [c0|es] n' [|y q] H D;
    simpl in H, D; try discriminate.
  destruct (String.eqb x y) eqn:E.
  - apply String.eqb_eq in E. subst y.
    destruct (assoc x es) as [ch|] eqn:A.
    + destruct (write_file p c ch) as [e|ch'] eqn:E; inversion H; subst.
      rewrite lookup_set_entry_eq. simpl. rewrite A. eauto.
    + destruct p; simpl in D; discriminate.
  - apply String.eqb_neq in E.
    destruct (assoc x es) as [ch|] eqn:A.
    + destruct (write_file p c ch) as [e|ch'] eqn:E'; inversion H; subst.
      now apply lookup_set_entry_neq.
    + destruct p; inversion H; subst. now apply lookup_set_entry_neq.
Qed.

Lemma write_file_keeps p c : forall n n', write_file p c n = inr n' -> keeps n n'.
Proof.
  induction p as [|x p IH]; intros [c0|es] n' H; simpl in H; try discriminate.
  - inversion H. intros q N. apply lookup_file_nil in N. now subst q.
  - intros [|y q] N; [destruct (assoc x es) as [ch|];
      [destruct (write_file p c ch)|destruct p]; inversion H; reflexivity|].
    destruct (String.eqb x y) eqn:E.
    + apply String.eqb_eq in E. subst y.
      destruct (assoc x es) as [ch|] eqn:A.
      * destruct (write_file p c ch) as [e|ch'] eqn:E; inversion H; subst.
        rewrite lookup_set_entry_eq. simpl in *. rewrite A in *.
        eapply IH; eauto.
      * simpl in N. rewrite A in N. congruence.
    + apply String.eqb_neq in E.
      destruct (assoc x es) as [ch|] eqn:A.
      * destruct (write_file p c ch) as [e|ch'] eqn:E'; inversion H; subst.
        now rewrite lookup_set_entry_neq.
      * destruct p; inversion H; subst. now rewrite lookup_set_entry_neq.
Qed.

Lemma write_file_succeeds p c : forall n,
  p <> [] -> is_dir (PurePath.parent p) n = true -> is_dir p n = false ->
  exists n', write_file p c n = inr n'.
Proof.
  unfold is_dir, PurePath.parent.
  induction p as [|x p IH]; intros n N D F; [congruence|].
  destruct n as [c0|es].
  { destruct p; simpl in D; discriminate. }
  simpl write_file. simpl lookup in F.
  destruct p as [|y p].
  - destruct (assoc x es) as [[c1|es1]|]; simpl in *; eauto. discriminate.
  - cbn [removelast] in D. simpl lookup in D.
    destruct (assoc x es) as [ch|]; [|discriminate].
    destruct (IH ch) as (ch' & W); auto; [discriminate|].
    rewrite W. eauto.
Qed.

(** The ancestors of a directory are directories. *)
Lemma is_dir_prefix q r n : is_dir (q ++ r) n = true -> is_dir q n = true.
Proof.
  unfold is_dir. rewrite lookup_app.
  destruct (lookup q n) as [[c|es]|]; auto.
  destruct r; simpl; discriminate.
Qed.

(** *** [remove_file] *)

Lemma remove_file_frame p : forall n q,
  diverge p q = true -> lookup q (remove_file p n) = lookup q n.
Proof.
  induction p as [|x p IH]; intros [c0|es] [|y q] D;
    simpl in D; try discriminate; auto.
  simpl remove_file.
  destruct (assoc x es) as [ch|] eqn:A; auto.
  destruct (String.eqb x y) eqn:E.
  - apply String.eqb_eq in E. subst y.
    destruct p as [|x' p]; [discriminate|].
    rewrite lookup_set_entry_eq. simpl lookup at 2. rewrite A. auto.
  - apply String.eqb_neq in E.
    destruct p as [|x' p].
    + destruct ch; auto. simpl. now rewrite assoc_del_entry_neq.
    + now apply lookup_set_entry_neq.
Qed.

Lemma remove_file_keeps_others p : forall n q,
  lookup q n <> None -> q <> p ->
  kind (lookup q (remove_file p n)) = kind (lookup q n).
Proof.
  induction p as [|x p IH]; intros [c0|es] [|y q] N D; auto.
  - simpl remove_file.
    destruct (assoc x es) as [ch|] eqn:A; auto.
    destruct p; [destruct ch|]; auto.
  - simpl remove_file.
    destruct (assoc x es) as [ch|] eqn:A; auto.
    destruct (String.eqb x y) eqn:E.
    + apply String.eqb_eq in E. subst y.
      simpl in N. rewrite A in N.
      destruct p as [|x' p].
      * destruct ch as [c|es']; auto.
        apply lookup_file_nil in N. subst q. congruence.
      * rewrite lookup_set_entry_eq. simpl lookup at 2. rewrite A.
        apply IH; auto. congruence.
    + apply String.eqb_neq in E.
      destruct p as [|x' p].
      * destruct ch; auto. simpl. now rewrite assoc_del_entry_neq.
      * now rewrite lookup_set_entry_neq.
Qed.

End FSFacts.

(** ** The monad: how [fs_rel] composes *)

Section RelFacts.

Context {P : Pillow}.
Variable I : node -> node -> Prop.
Hypothesis I_refl : forall n, I n n.
Hypothesis I_trans : forall a b c, I a b -> I b c -> I a c.

Lemma fs_rel_ret A (a : A) : fs_rel I (ret a).
Proof.
  intros w r w' H. inversion H; subst.
  repeat split; auto. exists []. now rewrite app_nil_r. congruence.
Qed.

Lemma fs_rel_lift A (x : Exception + A) : fs_rel I (lift x).
Proof.
  intros w r w' H. destruct x; inversion H; subst;
    (repeat split; auto; [exists []; now rewrite app_nil_r | congruence]).
Qed.

Lemma fs_rel_raise_exc A (e : Exception) : fs_rel I (raise (A := A) (Exc e)).
Proof.
  intros w r w' H. inversion H; subst.
  repeat split; auto. exists []. now rewrite app_nil_r. congruence.
Qed.

Lemma fs_rel_log (e : event) : fs_rel I (log e).
Proof.
  intros w r w' H. inversion H; subst; simpl.
  repeat split; auto. now exists [e]. congruence.
Qed.

Lemma fs_rel_get_fs : fs_rel I get_fs.
Proof.
  intros w r w' H. inversion H; subst.
  repeat split; auto. exists []. now rewrite app_nil_r. congruence.
Qed.

Lemma fs_rel_bind A B (m : M A) (k : A -> M B) :
  fs_rel I m -> (forall a, fs_rel I (k a)) -> fs_rel I (bind m k).
Proof.
  intros Hm Hk w r w' H. unfold bind in H.
  destruct (m w) as [[a|x] w1] eqn:E.
  - destruct (Hm _ _ _ E) as (I1 & C1 & S1 & (l1 & L1) & _).
    destruct (Hk a _ _ _ H) as (I2 & C2 & S2 & (l2 & L2) & X2).
    repeat split; eauto; try congruence.
    exists (l1 ++ l2). now rewrite L2, L1, app_assoc.
  - inversion H; subst.
    destruct (Hm _ _ _ E) as (I1 & C1 & S1 & L1 & X1).
    repeat split; auto. intros msg Q. apply (X1 msg). congruence.
Qed.

Lemma fs_rel_try A (m : M A) (h : Exception -> M A) :
  fs_rel I m -> (forall e, fs_rel I (h e)) -> fs_rel I (try_except m h).
Proof.
  intros Hm Hh w r w' H. unfold try_except in H.
  destruct (m w) as [[a|[e|msg]] w1] eqn:E.
  - inversion H; subst. exact (Hm _ _ _ E).
  - destruct (Hm _ _ _ E) as (I1 & C1 & S1 & (l1 & L1) & _).
    destruct (Hh e _ _ _ H) as (I2 & C2 & S2 & (l2 & L2) & X2).
    repeat split; eauto; try congruence.
    exists (l1 ++ l2). now rewrite L2, L1, app_assoc.
  - inversion H; subst. exact (Hm _ _ _ E).
Qed.

Lemma fs_rel_finally A (m : M A) (c : M unit) :
  fs_rel I m -> fs_rel I c -> fs_rel I (finally_ m c).
Proof.
  intros Hm Hc w r w' H. unfold finally_ in H.
  destruct (m w) as [r1 w1] eqn:E.
  destruct (Hm _ _ _ E) as (I1 & C1 & S1 & (l1 & L1) & X1).
  destruct (c w1) as [[u|x] w2] eqn:E2;
    destruct (Hc _ _ _ E2) as (I2 & C2 & S2 & (l2 & L2) & X2);
    inversion H; subst;
    (repeat split; eauto; try congruence;
     exists (l1 ++ l2); now rewrite L2, L1, app_assoc).
Qed.

End RelFacts.

(** ** The library calls *)

Section CallFacts.

Context {P : Pillow}.
Import FS FSFacts.

Lemma changed_below_refl base n : changed_below base n n.
Proof. split; auto using keeps_refl. Qed.

Lemma changed_below_trans base a b c :
  changed_below base a b -> changed_below base b c -> changed_below base a c.
Proof.
  intros [K1 F1] [K2 F2]. split; eauto using keeps_trans.
  intros q D. now rewrite F2, F1.
Qed.

Lemma diverge_parent p q :
  diverge (PurePath.parent p) q = true -> diverge p q = true.
Proof.
  unfold PurePath.parent. intros D.
  destruct p as [|x p]; [discriminate|].
  rewrite (app_removelast_last "" (l := x :: p)) by discriminate.
  now apply diverge_app.
Qed.

Ltac step_in H :=
  unfold Path_mkdir, Image_save, Image_open, Image_seek, Image_convert,
    Image_close, Path_exists, Path_is_file, Path_resolve, Path_rglob,
    bind, log, get_fs, put_fs, print, lift, ret, raise in H;
  simpl in H.

Lemma Path_mkdir_ok p w n' :
  mkdir_p p (fs w) = inr n' ->
  Path_mkdir p w = (Ok tt, with_fs (logged w [EvMkdir p]) n').
Proof.
  intros E. unfold Path_mkdir, bind, log, get_fs, put_fs, lift, ret.
  simpl. now rewrite E.
Qed.

Lemma Path_mkdir_fails p w e :
  mkdir_p p (fs w) = inl e ->
  Path_mkdir p w = (Raise (Exc e), logged w [EvMkdir p]).
Proof.
  intros E. unfold Path_mkdir, bind, log, get_fs, put_fs, lift, raise.
  simpl. now rewrite E.
Qed.

Lemma rel_intro (I : node -> node -> Prop) A (r : result A) w w' l :
  I (fs w) (fs w') -> cwd w' = cwd w -> stdout w' = stdout w ->
  calls w' = calls w ++ l -> (forall msg, r <> Raise (SystemExit msg)) ->
  I (fs w) (fs w')
  /\ cwd w' = cwd w
  /\ stdout w' = stdout w
  /\ (exists l, calls w' = calls w ++ l)
  /\ (forall msg, r <> Raise (SystemExit msg)).
Proof. intros. repeat (split; auto). now exists l. Qed.

Ltac rel_done := eapply rel_intro; simpl; eauto; try congruence.

Lemma Path_mkdir_rel p : fs_rel (changed_below p) (Path_mkdir p).
Proof.
  intros w r w' H.
  destruct (mkdir_p p (fs w)) as [e|n'] eqn:E.
  - rewrite (Path_mkdir_fails _ _ _ E) in H. inversion H; subst.
    rel_done. apply changed_below_refl.
  - rewrite (Path_mkdir_ok _ _ _ E) in H. inversion H; subst.
    rel_done. split; eauto using mkdir_p_keeps.
    intros q D. eapply mkdir_p_frame; eauto.
Qed.

Lemma Image_open_rel I src :
  (forall n, I n n) -> (forall a b c, I a b -> I b c -> I a c) ->
  fs_rel I (Image_open src).
Proof.
  intros R T. unfold Image_open.
  apply fs_rel_bind; auto using fs_rel_log. intros _.
  apply fs_rel_bind; auto using fs_rel_get_fs. intros n.
  destruct (lookup src n) as [[c|es]|];
    auto using fs_rel_lift, fs_rel_raise_exc.
Qed.

Lemma Image_seek_rel I im frame :
  (forall n, I n n) -> (forall a b c, I a b -> I b c -> I a c) ->
  fs_rel I (Image_seek im frame).
Proof.
  intros R T. unfold Image_seek.
  apply fs_rel_bind; auto using fs_rel_log, fs_rel_lift.
Qed.

Lemma Image_convert_rel I im md :
  (forall n, I n n) -> (forall a b c, I a b -> I b c -> I a c) ->
  fs_rel I (Image_convert im md).
Proof.
  intros R T. unfold Image_convert.
  apply fs_rel_bind; auto using fs_rel_log, fs_rel_lift.
Qed.

Lemma save_removed_keeps dst n n1 :
  exists_ dst n = false -> write_file dst "" n = inr n1 ->
  keeps n (remove_file dst n1).
Proof.
  intros X W q N.
  assert (q <> dst).
  { intros ->. unfold exists_ in X. destruct (lookup dst n); congruence. }
  pose proof (write_file_keeps _ _ _ _ W q N) as K.
  rewrite <- K. apply remove_file_keeps_others; auto.
  destruct (lookup q n1); [congruence|].
  destruct (lookup q n) as [[|]|]; simpl in K; congruence.
Qed.

Lemma write_file_changed dst c n n' :
  write_file dst c n = inr n' -> changed_below (PurePath.parent dst) n n'.
Proof.
  intros W. split; eauto using write_file_keeps.
  intros q D. eapply write_file_frame; eauto using diverge_parent.
Qed.

Lemma Image_save_rel im dst opt :
  fs_rel (changed_below (PurePath.parent dst)) (Image_save im dst opt).
Proof.
  intros w r w' H. step_in H.
  destruct (write_file dst "" (fs w)) as [e|n1] eqn:W; simpl in H.
  { inversion H; subst. rel_done. apply changed_below_refl. }
  pose proof (write_file_changed _ _ _ _ W) as C1.
  destruct (encode_png im opt) as [[e partial]|bytes]; simpl in H.
  - destruct (exists_ dst (fs w)) eqn:X; simpl in H.
    + destruct (write_file dst partial n1) as [e2|n2] eqn:W2; simpl in H;
        inversion H; subst; rel_done.
      eauto using changed_below_trans, write_file_changed.
    + inversion H; subst. rel_done.
      split; eauto using save_removed_keeps.
      intros q D. rewrite remove_file_frame by auto using diverge_parent.
      now apply C1.
  - destruct (write_file dst bytes n1) as [e2|n2] eqn:W2; simpl in H;
      inversion H; subst; rel_done.
    eauto using changed_below_trans, write_file_changed.
Qed.

(** A save that returns leaves a regular file at [dst]. *)
Lemma Image_save_ok im dst opt w w' :
  Image_save im dst opt w = (Ok tt, w') -> is_file dst (fs w') = true.
Proof.
  intros H. step_in H.
  destruct (write_file dst "" (fs w)) as [e|n1] eqn:W; simpl in H;
    [discriminate|].
  destruct (encode_png im opt) as [[e partial]|bytes]; simpl in H.
  - destruct (exists_ dst (fs w)); simpl in H;
      [destruct (write_file dst partial n1); simpl in H|]; discriminate.
  - destruct (write_file dst bytes n1) as [e2|n2] eqn:W2; simpl in H;
      inversion H; subst; simpl.
    unfold is_file. now rewrite (write_file_is_file _ _ _ _ W2).
Qed.

(** A save goes through when the encoder does, the directory of [dst] is
    there and [dst] is not itself a directory. *)
Lemma Image_save_succeeds im dst opt bytes w :
  encode_png im opt = inr bytes ->
  dst <> [] ->
  is_dir (PurePath.parent dst) (fs w) = true ->
  is_dir dst (fs w) = false ->
  exists w', Image_save im dst opt w = (Ok tt, w').
Proof.
  intros En N D F.
  destruct (write_file_succeeds dst "" (fs w) N D F) as (n1 & W1).
  assert (D1 : is_dir (PurePath.parent dst) n1 = true)
    by eauto using keeps_is_dir, write_file_keeps.
  assert (F1 : is_dir dst n1 = false)
    by (unfold is_dir; now rewrite (write_file_is_file _ _ _ _ W1)).
  destruct (write_file_succeeds dst bytes n1 N D1 F1) as (n2 & W2).
  unfold Image_save, bind, log, get_fs, put_fs, lift, ret. simpl.
  rewrite W1. simpl. rewrite En. simpl. rewrite W2. simpl. eauto.
Qed.

End CallFacts.

(** ** [convert_one] *)

Section ConvertFacts.

Context {P : Pillow}.
Import FS FSFacts.

Lemma convert_one_unfold src dst :
  convert_one src dst =
  (Path_mkdir (PurePath.parent dst) ;;
   im <- Image_open src ;;
   with_block src dst im).
Proof. reflexivity. Qed.

Lemma from_mode_check_rel dst im :
  fs_rel (changed_below (PurePath.parent dst)) (from_mode_check dst im).
Proof.
  unfold from_mode_check.
  apply fs_rel_bind;
    auto using changed_below_refl, Image_save_rel.
  - apply changed_below_trans.
  - destruct (negb _).
    + apply Image_convert_rel;
        [apply changed_below_refl | apply changed_below_trans].
    + apply fs_rel_ret. apply changed_below_refl.
Qed.

Lemma with_block_rel src dst im :
  fs_rel (changed_below (PurePath.parent dst)) (with_block src dst im).
Proof.
  pose proof (changed_below_refl (PurePath.parent dst)) as R.
  pose proof (@changed_below_trans (PurePath.parent dst)) as T.
  unfold with_block, Image_close.
  apply fs_rel_finally; auto using fs_rel_log.
  apply fs_rel_bind; auto using from_mode_check_rel.
  apply fs_rel_try; auto using Image_seek_rel, fs_rel_ret.
Qed.

Lemma convert_one_rel src dst :
  fs_rel (changed_below (PurePath.parent dst)) (convert_one src dst).
Proof.
  pose proof (changed_below_refl (PurePath.parent dst)) as R.
  pose proof (@changed_below_trans (PurePath.parent dst)) as T.
  rewrite convert_one_unfold.
  apply fs_rel_bind; auto using Path_mkdir_rel. intros _.
  apply fs_rel_bind; auto using Image_open_rel, with_block_rel.
Qed.

(** A conversion that returns leaves a regular file at [dst]. *)
Lemma convert_one_ok_is_file src dst w w' :
  convert_one src dst w = (Ok tt, w') -> is_file dst (fs w') = true.
Proof.
  rewrite convert_one_unfold. unfold bind at 1 2. intros H.
  destruct (Path_mkdir _ w) as [[u|x] w1]; [|discriminate].
  destruct (Image_open src w1) as [[im|x] w2]; [|discriminate].
  unfold with_block, finally_ in H.
  match type of H with context [bind ?m ?k w2] =>
    destruct (bind m k w2) as [r3 w3] eqn:B end.
  unfold Image_close, log in H. inversion H; subst; simpl. clear H.
  unfold bind in B.
  destruct (try_except _ _ w2) as [[im1|x] w4]; [|discriminate].
  unfold from_mode_check, bind in B.
  match type of B with context [(if ?c then ?a else ?b) w4] =>
    destruct ((if c then a else b) w4) as [[im2|x] w5]; [|discriminate] end.
  eapply Image_save_ok; eauto.
Qed.

(** What [Image.save] records is the one call, with the image it is given. *)
Lemma Image_save_calls im dst opt w r w' :
  Image_save im dst opt w = (r, w') -> calls w' = calls w ++ [EvSave im dst].
Proof.
  unfold Image_save, bind, log, get_fs, put_fs, lift, ret, raise. simpl.
  destruct (write_file dst "" (fs w)) as [e|n1]; simpl.
  { intros H; now inversion H. }
  destruct (encode_png im opt) as [[e partial]|bytes]; simpl.
  - destruct (exists_ dst (fs w)); simpl;
      [destruct (write_file dst partial n1); simpl|];
      intros H; now inversion H.
  - destruct (write_file dst bytes n1); simpl; intros H; now inversion H.
Qed.

(** [convert_one] up to the mode check: the chain of directories is made,
    the source is opened and decoded, the first frame is asked for, and
    whether that raises or not the block goes on. *)
Lemma convert_one_opened src dst w n1 c im0 :
  mkdir_p (PurePath.parent dst) (fs w) = inr n1 ->
  lookup src n1 = Some (File c) ->
  decode c = inr im0 ->
  convert_one src dst w =
  finally_ (from_mode_check dst (after_seek im0)) (Image_close src)
    (mkWorld n1 (cwd w) (stdout w)
       (calls w ++ [EvMkdir (PurePath.parent dst); EvOpen src; EvSeek 0])).
Proof.
  intros Hm Hl Hd. rewrite convert_one_unfold.
  unfold bind at 1. rewrite (Path_mkdir_ok _ _ _ Hm).
  unfold bind at 1, Image_open, bind at 1 2, log, get_fs. simpl.
  rewrite Hl, Hd. simpl.
  unfold with_block, finally_, bind at 1, try_except, Image_seek,
    bind at 1, log, lift, after_seek. simpl.
  rewrite <- !app_assoc. simpl.
  destruct (seek im0 0) as [e|im1]; reflexivity.
Qed.

End ConvertFacts.

(** ** Names and destinations *)

Module PathFacts.

Lemma append_empty_r s : s ^^ "" = s.
Proof. induction s; simpl; congruence. Qed.

Lemma append_assoc a b c : (a ^^ b) ^^ c = a ^^ b ^^ c.
Proof. induction a; simpl; congruence. Qed.

Lemma take_drop n : forall s, Str.take n s ^^ Str.drop n s = s.
Proof. induction n; intros [|a s]; simpl; auto. now rewrite IHn. Qed.

Lemma take_all s : Str.take (String.length s) s = s.
Proof. induction s; simpl; congruence. Qed.

Lemma length_drop n : forall s,
  String.length (Str.drop n s) = (String.length s - n)%nat.
Proof. induction n; intros [|a s]; simpl; auto. Qed.

(** A name is its stem followed by its suffix. *)
Lemma stem_suffix nm :
  nm = PurePath.stem_of_name nm ^^ PurePath.suffix_of_name nm.
Proof.
  unfold PurePath.stem_of_name, PurePath.suffix_of_name, Str.len.
  destruct ((0 <? Str.rfind nm ".") && _) eqn:C.
  - apply andb_prop in C. destruct C as [C1 C2].
    apply Z.ltb_lt in C1, C2.
    rewrite length_drop.
    replace (String.length nm - (String.length nm - Z.to_nat (Str.rfind nm ".")))%nat
      with (Z.to_nat (Str.rfind nm ".")) by lia.
    now rewrite take_drop.
  - simpl. now rewrite Nat.sub_0_r, take_all, append_empty_r.
Qed.

Lemma tiff_name_suffix nm :
  tiff_name nm = true -> PurePath.suffix_of_name nm <> "".
Proof.
  unfold tiff_name. intros H E. rewrite E in H. discriminate.
Qed.

Lemma tiff_name_nonempty nm : tiff_name nm = true -> nm <> "".
Proof. intros H E. subst nm. discriminate. Qed.

Lemma name_last dirs nm : PurePath.name (dirs ++ [nm]) = nm.
Proof. unfold PurePath.name. apply last_last. Qed.

Lemma parent_last dirs nm : PurePath.parent (dirs ++ [nm]) = dirs.
Proof. unfold PurePath.parent. apply removelast_last. Qed.

Lemma strip_prefix_app a : forall b, PurePath.strip_prefix a (a ++ b) = Some b.
Proof.
  induction a as [|x a IH]; intros b; simpl; auto.
  now rewrite String.eqb_refl.
Qed.

(** Where a file with a TIFF name below [IN_DIR] goes *)
Lemma destination_tiff dirs nm :
  tiff_name nm = true ->
  destination (IN_DIR ++ dirs ++ [nm]) =
  inr (OUT_DIR ++ dirs ++ [PurePath.stem_of_name nm ^^ ".png"]).
Proof.
  intros T. unfold destination, PurePath.relative_to.
  rewrite strip_prefix_app.
  unfold PurePath.with_suffix, PurePath.suffix.
  rewrite name_last, parent_last.
  destruct (String.eqb nm "") eqn:E1.
  { apply String.eqb_eq in E1. now apply tiff_name_nonempty in T. }
  destruct (String.eqb (PurePath.suffix_of_name nm) "") eqn:E2.
  { apply String.eqb_eq in E2. now apply tiff_name_suffix in T. }
  reflexivity.
Qed.

(** A path that is not empty is its parent and its name. *)
Lemma path_split (rel : path) :
  rel <> [] -> rel = PurePath.parent rel ++ [PurePath.name rel].
Proof. intros N. now apply app_removelast_last. Qed.

Lemma name_under (base rel : path) :
  rel <> [] -> PurePath.name (base ++ rel) = PurePath.name rel.
Proof.
  intros N. rewrite (path_split rel N) at 1.
  rewrite app_assoc. apply name_last.
Qed.

End PathFacts.

(** ** One turn of the loop *)

Section LoopFacts.

Context {P : Pillow}.
Import FS FSFacts PathFacts.

Lemma bind_ok A B (m : M A) (k : A -> M B) w a w' :
  m w = (Ok a, w') -> bind m k w = k a w'.
Proof. unfold bind. now intros ->. Qed.

Lemma loop_body_not_candidate src t w :
  is_candidate src (fs w) = false -> loop_body src t w = (Ok t, w).
Proof.
  unfold is_candidate, loop_body. intros C.
  erewrite bind_ok by reflexivity.
  destruct (is_file src (fs w)); [|reflexivity].
  change (in_ (Str.lower (PurePath.suffix src)) [".tif"; ".tiff"])
    with (tiff_name (PurePath.name src)).
  simpl in C. rewrite C. reflexivity.
Qed.

Lemma loop_body_candidate src dst t w :
  is_candidate src (fs w) = true -> destination src = inr dst ->
  loop_body src t w =
  if exists_ dst (fs w) then (Ok (skipped_one t), w)
  else
    match convert_one src dst w with
    | (Ok _, w') => (Ok (converted_one t), w')
    | (Raise (Exc e), w') =>
        (Ok (failed_one t), printed w' [fail_line src dst e])
    | (Raise (SystemExit m), w') => (Raise (SystemExit m), w')
    end.
Proof.
  unfold is_candidate. intros C D. apply andb_prop in C as [C1 C2].
  unfold loop_body.
  erewrite bind_ok by reflexivity.
  rewrite C1.
  change (in_ (Str.lower (PurePath.suffix src)) [".tif"; ".tiff"])
    with (tiff_name (PurePath.name src)).
  rewrite C2, D. cbn [negb lift].
  erewrite bind_ok by reflexivity.
  unfold SKIP_EXISTING.
  erewrite bind_ok by reflexivity.
  destruct (exists_ dst (fs w)); [reflexivity|].
  unfold try_except, bind.
  destruct (convert_one src dst w) as [[[]|[e|m]] w']; reflexivity.
Qed.

Lemma candidate_under rel n root :
  rel <> [] -> lookup IN_DIR n = Some root ->
  is_candidate (IN_DIR ++ rel) n = is_candidate rel root.
Proof.
  intros N L. unfold is_candidate, is_file.
  now rewrite lookup_app, L, name_under.
Qed.

Lemma diverge_out_in dirs : diverge (OUT_DIR ++ dirs) IN_DIR = true.
Proof. now apply diverge_app. Qed.

(** What one turn of the loop does with the entry [IN_DIR/rel] *)
Lemma loop_body_step rel t w root :
  rel <> [] -> lookup IN_DIR (fs w) = Some root ->
  exists t' w',
    loop_body (IN_DIR ++ rel) t w = (Ok t', w')
    /\ lookup IN_DIR (fs w') = Some root
    /\ keeps (fs w) (fs w')
    /\ cwd w' = cwd w
    /\ if is_candidate rel root then
         exists dst,
           destination (IN_DIR ++ rel) = inr dst
           /\ ((t' = skipped_one t /\ w' = w /\ exists_ dst (fs w) = true)
               \/ (t' = converted_one t /\ exists_ dst (fs w) = false
                   /\ convert_one (IN_DIR ++ rel) dst w = (Ok tt, w'))
               \/ (exists e w1,
                     t' = failed_one t /\ exists_ dst (fs w) = false
                     /\ convert_one (IN_DIR ++ rel) dst w = (Raise (Exc e), w1)
                     /\ w' = printed w1 [fail_line (IN_DIR ++ rel) dst e]))
       else t' = t /\ w' = w.
Proof.
  intros N L.
  pose proof (candidate_under rel (fs w) root N L) as CU.
  destruct (is_candidate rel root) eqn:C.
  - assert (T : tiff_name (PurePath.name rel) = true).
    { unfold is_candidate in C. now apply andb_prop in C. }
    pose proof (destination_tiff (PurePath.parent rel) _ T) as D.
    rewrite <- (path_split rel N) in D.
    set (dst := OUT_DIR ++ PurePath.parent rel
                  ++ [PurePath.stem_of_name (PurePath.name rel) ^^ ".png"]) in *.
    assert (PD : PurePath.parent dst = OUT_DIR ++ PurePath.parent rel).
    { unfold dst. rewrite app_assoc. apply parent_last. }
    rewrite (loop_body_candidate _ _ t _ CU D).
    destruct (exists_ dst (fs w)) eqn:X.
    + exists (skipped_one t), w. repeat split; auto using keeps_refl.
      exists dst. split; auto.
    + destruct (convert_one (IN_DIR ++ rel) dst w) as [r w'] eqn:CO.
      destruct (convert_one_rel _ _ _ _ _ CO) as ([K F] & Cw & So & _ & NX).
      assert (L' : lookup IN_DIR (fs w') = Some root).
      { rewrite F; auto. rewrite PD. apply diverge_out_in. }
      destruct r as [[]|[e|m]].
      * exists (converted_one t), w'. repeat split; auto.
        exists dst. split; auto.
      * exists (failed_one t), (printed w' [fail_line (IN_DIR ++ rel) dst e]).
        repeat split; auto. exists dst. split; auto.
        right; right. exists e, w'. auto.
      * now destruct (NX m).
  - rewrite loop_body_not_candidate by now rewrite CU.
    exists t, w. repeat split; auto using keeps_refl.
Qed.


End LoopFacts.

(** ** The loop and [main] *)

Section MainFacts.

Context {P : Pillow}.
Import FS FSFacts PathFacts.

Lemma for_each_cons A S (x : A) l (body : A -> S -> M S) s :
  for_each (x :: l) body s = bind (body x s) (for_each l body).
Proof. reflexivity. Qed.

(** The loop over the entries [rels] of the input directory: it always
    returns; the input directory is as before; nothing that was there is
    lost; the counters grow, by one per candidate in all. *)
Lemma for_each_loop rels : forall t w root,
  Forall (fun rel => rel <> []) rels ->
  lookup IN_DIR (fs w) = Some root ->
  exists t' w',
    for_each (map (PurePath.joinpath IN_DIR) rels) loop_body t w = (Ok t', w')
    /\ lookup IN_DIR (fs w') = Some root
    /\ keeps (fs w) (fs w')
    /\ cwd w' = cwd w
    /\ count_total t' = count_total t + Z.of_nat (ncand root rels)
    /\ count_done t <= count_done t'
    /\ count_skipped t <= count_skipped t'
    /\ count_failed t <= count_failed t'
    /\ count_total t' - count_total t
       = (count_done t' - count_done t)
         + (count_skipped t' - count_skipped t)
         + (count_failed t' - count_failed t)
    /\ (count_failed t' = count_failed t ->
        forall rel, In rel rels -> is_candidate rel root = true ->
        exists dst,
          destination (IN_DIR ++ rel) = inr dst
          /\ exists_ dst (fs w') = true).
Proof.
  induction rels as [|rel rels IH]; intros t w root NE L.
  - exists t, w. simpl. repeat split; auto using keeps_refl; try lia;
      try (unfold ncand; simpl; lia).
    all: try (intros _ rel []).
  - inversion NE as [|? ? N NE']; subst.
    destruct (loop_body_step rel t w root N L)
      as (t1 & w1 & B & L1 & K1 & C1 & O).
    destruct (IH t1 w1 root NE' L1)
      as (t' & w' & R & L' & K' & C' & T' & D' & S' & F' & Sum & Ex).
    exists t', w'. simpl map. rewrite for_each_cons.
    unfold PurePath.joinpath at 1. rewrite (bind_ok _ _ _ _ _ _ _ B).
    unfold ncand in *. simpl filter.
    destruct (is_candidate rel root) eqn:Cand.
    + destruct O as (dst & Dst & O). simpl List.length.
      assert (St : (t1 = skipped_one t \/ t1 = converted_one t
                    \/ t1 = failed_one t)).
      { destruct O as [[E _]|[[E _]|(e & w0 & E & _)]]; auto. }
      repeat split; eauto using keeps_trans; try congruence;
        try (destruct St as [ -> | [ -> | -> ] ]; simpl in *; lia).
      intros Hf rel' [<-|I] Cand'.
      * exists dst. split; auto.
        destruct O as [(E1 & E2 & X)|[(E1 & X & CO)|(e & w0 & E1 & _)]];
          subst t1.
        -- subst w1. eauto using keeps_exists.
        -- apply convert_one_ok_is_file in CO.
           apply keeps_exists with (a := fs w1); auto.
           unfold is_file in CO. unfold exists_.
           destruct (lookup dst (fs w1)); congruence.
        -- simpl in *. lia.
      * apply Ex; auto.
        destruct St as [ -> | [ -> | -> ] ]; simpl in *; lia.
    + destruct O as [-> ->].
      repeat split; eauto using keeps_trans; try congruence; try lia.
      intros Hf rel' [<-|I] Cand'; [congruence|]. now apply Ex.
Qed.

(** The loop when every candidate has its destination already: all are
    skipped and the world stays as it is. *)
Lemma for_each_all_skipped rels : forall t w root,
  Forall (fun rel => rel <> []) rels ->
  lookup IN_DIR (fs w) = Some root ->
  (forall rel, In rel rels -> is_candidate rel root = true ->
   exists dst,
     destination (IN_DIR ++ rel) = inr dst /\ exists_ dst (fs w) = true) ->
  for_each (map (PurePath.joinpath IN_DIR) rels) loop_body t w =
  (Ok (mkTally (count_total t + Z.of_nat (ncand root rels))
               (count_done t)
               (count_skipped t + Z.of_nat (ncand root rels))
               (count_failed t)), w).
Proof.
  induction rels as [|rel rels IH]; intros t w root NE L Ex.
  - simpl. unfold ret, ncand. simpl. rewrite !Z.add_0_r. now destruct t.
  - inversion NE as [|? ? N NE']; subst.
    cbn [map]. rewrite for_each_cons. unfold PurePath.joinpath at 1.
    pose proof (candidate_under rel (fs w) root N L) as CU.
    unfold ncand in *. cbn [filter].
    destruct (is_candidate rel root) eqn:Cand.
    + destruct (Ex rel (or_introl eq_refl) Cand) as (dst & D & X).
      erewrite bind_ok
        by (rewrite (loop_body_candidate _ _ t _ CU D), X; reflexivity).
      rewrite (IH _ _ root); auto.
      * unfold skipped_one.
        cbn [List.length count_total count_done count_skipped count_failed].
        rewrite Nat2Z.inj_succ. do 2 f_equal. f_equal; lia.
      * intros rel' I. apply Ex. now right.
    + erewrite bind_ok by (now apply loop_body_not_candidate).
      rewrite (IH _ _ root); auto.
      intros rel' I. apply Ex. now right.
Qed.

Lemma rglob_nonempty n : Forall (fun rel => rel <> []) (rglob n).
Proof.
  apply Forall_forall. intros rel I.
  destruct n as [c|es]; simpl in I; [contradiction|].
  apply in_app_or in I. destruct I as [I|I].
  - apply in_map_iff in I. destruct I as (e & <- & _). discriminate.
  - apply in_flat_map in I. destruct I as (e & _ & I).
    apply in_map_iff in I. destruct I as (r & <- & _). discriminate.
Qed.

(** [main] when the input directory is missing *)
Lemma main_missing w :
  exists_ IN_DIR (fs w) = false ->
  main w =
  (Raise (SystemExit ("[ERROR] Input dir not found: "
                      ^^ "/" ^^ Str.join "/" (cwd w ++ IN_DIR))), w).
Proof.
  intros X. unfold main.
  erewrite bind_ok by reflexivity. rewrite X. reflexivity.
Qed.

(** [main] when the input path is there: the loop, then the report *)
Lemma main_present w root t w1 :
  lookup IN_DIR (fs w) = Some root ->
  for_each (map (PurePath.joinpath IN_DIR) (rglob root)) loop_body tally0 w
    = (Ok t, w1) ->
  cwd w1 = cwd w ->
  main w = (Ok t, printed w1 (report (cwd w) t)).
Proof.
  intros L R C. unfold main.
  erewrite bind_ok by reflexivity.
  unfold exists_. rewrite L. cbn [negb].
  erewrite bind_ok by (unfold Path_rglob; erewrite bind_ok by reflexivity;
                       rewrite L; reflexivity).
  erewrite bind_ok by exact R.
  unfold bind, print, Path_resolve, ret, printed, report. simpl.
  rewrite C, <- !app_assoc. reflexivity.
Qed.

End MainFacts.

(** ** Counting the candidates of a tree *)

Module TreeFacts.
Import FS FSFacts PathFacts.

(** Induction on a tree, with the property at hand for every entry of a
    directory *)
Lemma node_ind' (Q : node -> Prop) :
  (forall c, Q (File c)) ->
  (forall es, Forall (fun e => Q (snd e)) es -> Q (Dir es)) ->
  forall n, Q n.
Proof.
  intros HF HD. fix IH 1. intros [c|es]; [apply HF|]. apply HD.
  induction es as [|[x ch] es IHes]; constructor; [apply IH | apply IHes].
Qed.

Lemma wf_dir es :
  wf (Dir es) -> NoDup (map fst es) /\ Forall (fun e => wf (snd e)) es.
Proof.
  simpl. intros [ND A]. split; auto.
  induction es as [|e es IH]; constructor.
  - apply A.
  - apply IH; [now inversion ND | apply A].
Qed.

Lemma assoc_in x c es :
  NoDup (map fst es) -> In (x, c) es -> assoc x es = Some c.
Proof.
  induction es as [|[y d] es IH]; simpl; intros ND I; [contradiction|].
  inversion ND as [|? ? NI ND']; subst.
  destruct I as [E|I].
  - inversion E; subst. now rewrite String.eqb_refl.
  - destruct (String.eqb x y) eqn:E; auto.
    apply String.eqb_eq in E. subst y. exfalso. apply NI.
    apply in_map_iff. now exists (x, c).
Qed.

Lemma name_cons x r : r <> [] -> PurePath.name (x :: r) = PurePath.name r.
Proof. destruct r; [congruence | reflexivity]. Qed.

Lemma candidate_cons x c es r :
  assoc x es = Some c -> r <> [] ->
  is_candidate (x :: r) (Dir es) = is_candidate r c.
Proof.
  intros A N. unfold is_candidate, is_file. simpl lookup.
  now rewrite A, name_cons.
Qed.

Lemma candidate_entry x c es :
  assoc x es = Some c ->
  is_candidate [x] (Dir es) =
  match c with File _ => tiff_name x | Dir _ => false end.
Proof.
  intros A. unfold is_candidate, is_file. simpl lookup. rewrite A.
  now destruct c.
Qed.

Lemma ncand_cons x c es rs :
  assoc x es = Some c -> Forall (fun r => r <> []) rs ->
  ncand (Dir es) (map (cons x) rs) = ncand c rs.
Proof.
  intros A. unfold ncand. induction 1 as [|r rs N _ IH]; simpl; auto.
  rewrite (candidate_cons _ _ _ _ A N).
  destruct (is_candidate r c); simpl; now rewrite IH.
Qed.

Lemma ncand_app root a b : ncand root (a ++ b) = (ncand root a + ncand root b)%nat.
Proof. unfold ncand. now rewrite filter_app, length_app. Qed.

(** The candidates that [rglob] lists below a tree are its regular files
    with a TIFF extension, each counted once. *)
Lemma ncand_rglob : forall n, wf n -> ncand n (rglob n) = count_tiff n.
Proof.
  induction n as [c|es IH] using node_ind'; intros W; [reflexivity|].
  destruct (wf_dir _ W) as [ND Wes].
  simpl rglob. rewrite ncand_app. simpl count_tiff.
  assert (G : forall l, incl l es ->
    (ncand (Dir es) (map (fun e => [fst e]) l)
     + ncand (Dir es)
         (flat_map (fun e => map (cons (fst e)) (rglob (snd e))) l))%nat
    = list_sum
        (map (fun e => match snd e with
                       | File _ => if tiff_name (fst e) then 1%nat else 0%nat
                       | Dir _ => count_tiff (snd e)
                       end) l)).
  { induction l as [|[x c] l IHl]; intros Inc; [reflexivity|].
    assert (I : In (x, c) es) by (apply Inc; now left).
    assert (A : assoc x es = Some c) by now apply assoc_in.
    assert (Inc' : incl l es) by (intros e He; apply Inc; now right).
    specialize (IHl Inc').
    cbn [map flat_map fst snd].
    change (ncand (Dir es) ([x] :: map (fun e => [fst e]) l))
      with (ncand (Dir es) ([[x]] ++ map (fun e => [fst e]) l)).
    rewrite !ncand_app, (ncand_cons _ _ _ _ A (rglob_nonempty c)).
    assert (Hc : ncand c (rglob c) = count_tiff c).
    { rewrite Forall_forall in IH, Wes.
      apply (IH (x, c) I). apply (Wes (x, c) I). }
    rewrite Hc.
    unfold ncand at 1. cbn [filter].
    rewrite (candidate_entry _ _ _ A).
    assert (LS : forall a k, list_sum (a :: k) = (a + list_sum k)%nat)
      by reflexivity.
    rewrite LS, <- IHl. cbn [snd fst].
    destruct c as [c0|es']; [destruct (tiff_name x)|];
      cbn [List.length]; try change (count_tiff (File c0)) with 0%nat; lia. }
  apply G. apply incl_refl.
Qed.

End TreeFacts.

(** * The claims *)

Section Claims.

Context {P : Pillow}.
Import FS FSFacts PathFacts TreeFacts.

(** [main] returns whenever the input path is there, whatever the
    conversions do. *)
Lemma main_returns w :
  exists_ IN_DIR (fs w) = true ->
  exists t w1,
    main w = (Ok t, printed w1 (report (cwd w) t))
    /\ fs (printed w1 (report (cwd w) t)) = fs w1
    /\ lookup IN_DIR (fs w1) = lookup IN_DIR (fs w)
    /\ count_done t + count_skipped t + count_failed t = count_total t
    /\ 0 <= count_done t /\ 0 <= count_skipped t /\ 0 <= count_failed t
    /\ (forall root, lookup IN_DIR (fs w) = Some root ->
        count_total t = Z.of_nat (ncand root (rglob root))
        /\ (count_failed t = 0 ->
            forall rel, In rel (rglob root) -> is_candidate rel root = true ->
            exists dst,
              destination (IN_DIR ++ rel) = inr dst
              /\ exists_ dst (fs w1) = true)).
Proof.
  intros X. unfold exists_ in X.
  destruct (lookup IN_DIR (fs w)) as [root|] eqn:L; [|discriminate].
  destruct (for_each_loop (rglob root) tally0 w root (rglob_nonempty root) L)
    as (t & w1 & R & L1 & K & C & T & D & S & F & Sum & Ex).
  exists t, w1. simpl in T, D, S, F, Sum.
  rewrite (main_present w root t w1 L R C).
  split; [reflexivity|]. split; [reflexivity|]. split; [exact L1|].
  split; [lia|]. split; [lia|]. split; [lia|]. split; [lia|].
  intros root' E. inversion E; subst. split; [lia | exact Ex].
Qed.

(** C1, amended.  [main] fails fatally exactly when the input path does not
    exist, as a directory or as anything else.  It then raises [SystemExit]
    with a message that names the resolved path, and leaves the world as it
    found it: no file was processed, no report was printed, and the output
    directory was neither created nor touched. *)
Theorem main_fatal_iff_missing w :
  ((exists r w', main w = (Raise r, w')) <-> exists_ IN_DIR (fs w) = false)
  /\ (exists_ IN_DIR (fs w) = false ->
      exists msg,
        main w = (Raise (SystemExit msg), w)
        /\ Str.occurs_in ("/" ^^ Str.join "/" (cwd w ++ IN_DIR)) msg).
Proof.
  split; [split|].
  - intros (r & w' & H).
    destruct (exists_ IN_DIR (fs w)) eqn:X; auto.
    destruct (main_returns w X) as (t & w1 & M & _). congruence.
  - intros X. rewrite (main_missing w X). eauto.
  - intros X. rewrite (main_missing w X). eexists. split; [reflexivity|].
    exists "[ERROR] Input dir not found: ", "".
    now rewrite append_empty_r.
Qed.

(** C2.  A run that gets to the report ends with
    [converted + skipped + failed = total] and with no counter negative,
    and every candidate adds one to the total and one to exactly one of the
    three other counters. *)
Theorem tallies_add_up w :
  exists_ IN_DIR (fs w) = true ->
  (exists t w1,
     main w = (Ok t, printed w1 (report (cwd w) t))
     /\ count_done t + count_skipped t + count_failed t = count_total t
     /\ 0 <= count_total t /\ 0 <= count_done t
     /\ 0 <= count_skipped t /\ 0 <= count_failed t)
  /\ (forall rel root t,
        lookup IN_DIR (fs w) = Some root ->
        rel <> [] -> is_candidate rel root = true ->
        exists t' w',
          loop_body (IN_DIR ++ rel) t w = (Ok t', w')
          /\ (t' = converted_one t \/ t' = skipped_one t \/ t' = failed_one t)).
Proof.
  intros X. split.
  - destruct (main_returns w X) as (t & w1 & M & _ & _ & S & D & K & F & _).
    exists t, w1. repeat split; auto; lia.
  - intros rel root t L N C.
    destruct (loop_body_step rel t w root N L) as (t' & w' & B & _ & _ & _ & O).
    rewrite C in O. destruct O as (dst & _ & O).
    exists t', w'. split; auto.
    destruct O as [(E & _)|[(E & _)|(e & w0 & E & _)]]; auto.
Qed.

(** C3.  When the input path holds the tree [root], the total that [main]
    ends with is the number of regular files below [root] whose extension
    is .tif or .tiff in any case; an entry that is not such a file leaves
    the counters, and the world, as they are. *)
Theorem total_counts_tiff_files w root :
  lookup IN_DIR (fs w) = Some root -> wf root ->
  (exists t w', main w = (Ok t, w')
                /\ count_total t = Z.of_nat (count_tiff root))
  /\ (forall src t w0,
        is_candidate src (fs w0) = false -> loop_body src t w0 = (Ok t, w0)).
Proof.
  intros L W. split.
  - assert (X : exists_ IN_DIR (fs w) = true) by (unfold exists_; now rewrite L).
    destruct (main_returns w X) as (t & w1 & M & _ & _ & _ & _ & _ & _ & T).
    destruct (T root L) as [T' _].
    exists t, (printed w1 (report (cwd w) t)). split; auto.
    now rewrite T', ncand_rglob.
  - intros src t w0. apply loop_body_not_candidate.
Qed.

(** C4.  A file with a TIFF name at [IN_DIR/dirs/nm] goes to
    [OUT_DIR/dirs/stem.png], where [stem] is [nm] without its extension;
    that is the path the loop checks and hands to [convert_one].  So
    [public/patterns/a/b/img.tiff] goes to [public/patterns_png/a/b/img.png]. *)
Theorem destination_mirrors_input dirs nm :
  tiff_name nm = true ->
  let src := IN_DIR ++ dirs ++ [nm] in
  let dst := OUT_DIR ++ dirs ++ [PurePath.stem_of_name nm ^^ ".png"] in
  destination src = inr dst
  /\ nm = PurePath.stem_of_name nm ^^ PurePath.suffix_of_name nm
  /\ (forall t w, is_file src (fs w) = true ->
      loop_body src t w =
      if exists_ dst (fs w) then (Ok (skipped_one t), w)
      else
        match convert_one src dst w with
        | (Ok _, w') => (Ok (converted_one t), w')
        | (Raise (Exc e), w') =>
            (Ok (failed_one t), printed w' [fail_line src dst e])
        | (Raise (SystemExit m), w') => (Raise (SystemExit m), w')
        end)
  /\ destination ["public"; "patterns"; "a"; "b"; "img.tiff"]
     = inr ["public"; "patterns_png"; "a"; "b"; "img.png"]
  /\ PurePath.str ["public"; "patterns_png"; "a"; "b"; "img.png"]
     = "public/patterns_png/a/b/img.png".
Proof.
  intros T src dst.
  pose proof (destination_tiff dirs nm T) as D.
  repeat split; auto using stem_suffix.
  intros t w F. apply loop_body_candidate; auto.
  unfold is_candidate. rewrite F. unfold src.
  now rewrite app_assoc, name_last.
Qed.

(** C5.  A candidate whose destination is already there as a file is
    skipped: [skipped] and [total] go up by one and the world stays exactly
    as it was, so no call was made (the source was not opened, nothing was
    decoded or encoded), nothing was printed and the destination holds
    what it held; the loop goes on with the next entry. *)
Theorem existing_destination_is_skipped src dst t w rest :
  is_candidate src (fs w) = true ->
  destination src = inr dst ->
  is_file dst (fs w) = true ->
  SKIP_EXISTING = true
  /\ loop_body src t w = (Ok (skipped_one t), w)
  /\ (forall w', snd (loop_body src t w) = w' ->
      calls w' = calls w /\ lookup dst (fs w') = lookup dst (fs w)
      /\ lookup src (fs w') = lookup src (fs w))
  /\ for_each (src :: rest) loop_body t w
     = for_each rest loop_body (skipped_one t) w.
Proof.
  intros C D F.
  assert (X : exists_ dst (fs w) = true).
  { unfold is_file in F. unfold exists_.
    destruct (lookup dst (fs w)); congruence. }
  assert (B : loop_body src t w = (Ok (skipped_one t), w))
    by now rewrite (loop_body_candidate src dst t w C D), X.
  split; [reflexivity|]. split; [exact B|]. split.
  - intros w' E. rewrite B in E. simpl in E. now subst w'.
  - rewrite for_each_cons. now rewrite (bind_ok _ _ _ _ _ _ _ B).
Qed.

(** C6.  A candidate whose conversion raises is counted as failed, once:
    [failed] and [total] go up by one, one line made of the source path,
    the destination path and the text of the error is printed, and the
    loop goes on with the next entry.  Whatever [convert_one] raises is an
    [Exception] and is caught, and [main] returns normally whenever the
    input path is there, however many conversions failed. *)
Theorem failed_conversion_is_counted src dst t w e w1 rest :
  is_candidate src (fs w) = true ->
  destination src = inr dst ->
  exists_ dst (fs w) = false ->
  convert_one src dst w = (Raise (Exc e), w1) ->
  let line := "[FAIL] " ^^ PurePath.str src ^^ " -> " ^^ PurePath.str dst
              ^^ " | " ^^ exc_str e in
  let w' := mkWorld (fs w1) (cwd w1) (stdout w ++ [line]) (calls w1) in
  loop_body src t w = (Ok (failed_one t), w')
  /\ Str.occurs_in (PurePath.str src) line
  /\ Str.occurs_in (PurePath.str dst) line
  /\ Str.occurs_in (exc_str e) line
  /\ for_each (src :: rest) loop_body t w
     = for_each rest loop_body (failed_one t) w'
  /\ (forall s d w0 r w0',
        convert_one s d w0 = (Raise r, w0') -> exists e', r = Exc e')
  /\ (forall w0, exists_ IN_DIR (fs w0) = true ->
      exists t0 w0', main w0 = (Ok t0, w0')).
Proof.
  intros C D X CO line w'.
  destruct (convert_one_rel _ _ _ _ _ CO) as (_ & _ & So & _ & _).
  assert (B : loop_body src t w = (Ok (failed_one t), w')).
  { rewrite (loop_body_candidate src dst t w C D), X, CO.
    unfold printed, w', fail_line, line. now rewrite So. }
  split; [exact B|].
  split; [now exists "[FAIL] ", (" -> " ^^ PurePath.str dst ^^ " | " ^^ exc_str e)|].
  split.
  { exists ("[FAIL] " ^^ PurePath.str src ^^ " -> "), (" | " ^^ exc_str e).
    unfold line. now rewrite <- !append_assoc. }
  split.
  { exists ("[FAIL] " ^^ PurePath.str src ^^ " -> " ^^ PurePath.str dst ^^ " | "), "".
    unfold line. now rewrite append_empty_r, <- !append_assoc. }
  split; [rewrite for_each_cons; now rewrite (bind_ok _ _ _ _ _ _ _ B)|].
  split.
  - intros s d w0 r w0' H.
    destruct (convert_one_rel _ _ _ _ _ H) as (_ & _ & _ & _ & NX).
    destruct r as [e'|m]; eauto. now destruct (NX m).
  - intros w0 X0. destruct (main_returns w0 X0) as (t0 & w2 & M & _). eauto.
Qed.

(** C7.  Once the source is open and decoded, let [im] be the image the
    frame selection leaves.  If its mode is "RGB" or "RGBA", the calls of
    [convert_one] go straight from the seek to the save of [im] itself.
    Otherwise [im.convert("RGB")] is called first, and what is saved is the
    image it returns; if it raises, nothing is saved and the error is the
    result. *)
Theorem mode_is_normalized src dst w n1 c im0 :
  mkdir_p (PurePath.parent dst) (fs w) = inr n1 ->
  lookup src n1 = Some (File c) ->
  decode c = inr im0 ->
  let im := after_seek im0 in
  exists r w' l,
    convert_one src dst w = (r, w')
    /\ calls w' = calls w
                  ++ [EvMkdir (PurePath.parent dst); EvOpen src; EvSeek 0]
                  ++ l ++ [EvClose src]
    /\ if in_ (mode im) ["RGB"; "RGBA"] then l = [EvSave im dst]
       else
         match convert im "RGB" with
         | inr im' => l = [EvConvert "RGB"; EvSave im' dst]
         | inl e => l = [EvConvert "RGB"] /\ r = Raise (Exc e)
         end.
Proof.
  intros Hm Hl Hd im.
  rewrite (convert_one_opened src dst w n1 c im0 Hm Hl Hd).
  fold im.
  set (w1 := mkWorld n1 (cwd w) (stdout w) _).
  assert (C1 : calls w1 = calls w
                 ++ [EvMkdir (PurePath.parent dst); EvOpen src; EvSeek 0])
    by reflexivity.
  clearbody w1.
  unfold finally_, from_mode_check, Image_close.
  destruct (in_ (mode im) ["RGB"; "RGBA"]) eqn:Mo; cbn [negb].
  - unfold bind at 1, ret.
    destruct (Image_save im dst true w1) as [r w2] eqn:Sv.
    pose proof (Image_save_calls _ _ _ _ _ _ Sv) as C2.
    exists r, (logged w2 [EvClose src]), [EvSave im dst].
    split; [reflexivity|]. split; [|reflexivity].
    simpl calls. rewrite C2, C1. now rewrite <- !app_assoc.
  - unfold bind at 1, Image_convert, bind at 1, log, lift. simpl.
    destruct (convert im "RGB") as [e|im'] eqn:Cv; simpl.
    + eexists _, _, [EvConvert "RGB"].
      split; [reflexivity|]. split; [|auto].
      simpl calls. rewrite C1. now rewrite <- !app_assoc.
    + match goal with |- context [Image_save im' dst true ?x] =>
        destruct (Image_save im' dst true x) as [r w2] eqn:Sv end.
      pose proof (Image_save_calls _ _ _ _ _ _ Sv) as C2.
      exists r, (logged w2 [EvClose src]), [EvConvert "RGB"; EvSave im' dst].
      split; [reflexivity|]. split; [|reflexivity].
      simpl calls in *. rewrite C2, C1. now rewrite <- !app_assoc.
Qed.

(** C8.  When [im.seek(0)] raises on the decoded image [im0], the error
    goes no further: [convert_one] carries on from the mode check with
    [im0] itself, and its outcome is that of checking, converting and
    saving [im0].  In particular, when [im0] needs no mode conversion and
    the encoder accepts it, [convert_one] returns normally. *)
Theorem seek_failure_is_swallowed src dst w n1 c im0 e :
  mkdir_p (PurePath.parent dst) (fs w) = inr n1 ->
  lookup src n1 = Some (File c) ->
  decode c = inr im0 ->
  seek im0 0 = inl e ->
  convert_one src dst w =
  finally_
    (im <- (if negb (in_ (mode im0) ["RGB"; "RGBA"])
            then Image_convert im0 "RGB"
            else ret im0) ;;
     Image_save im dst true)
    (Image_close src)
    (mkWorld n1 (cwd w) (stdout w)
       (calls w ++ [EvMkdir (PurePath.parent dst); EvOpen src; EvSeek 0]))
  /\ (forall bytes,
        in_ (mode im0) ["RGB"; "RGBA"] = true ->
        encode_png im0 true = inr bytes ->
        dst <> [] -> is_dir dst n1 = false ->
        exists w', convert_one src dst w = (Ok tt, w')).
Proof.
  intros Hm Hl Hd Hs.
  rewrite (convert_one_opened src dst w n1 c im0 Hm Hl Hd).
  unfold after_seek. rewrite Hs. split; [reflexivity|].
  intros bytes Mo En N F.
  unfold finally_, from_mode_check, Image_close, log.
  rewrite Mo. cbn [negb]. unfold bind at 1, ret.
  set (w1 := mkWorld n1 (cwd w) (stdout w) _).
  destruct (Image_save_succeeds im0 dst true bytes w1 En N) as (w2 & Sv); auto.
  { simpl. eapply mkdir_p_is_dir; eauto. }
  rewrite Sv. eauto.
Qed.

(** C9, amended.  When a run ends with no failure, a second run on the
    world it left finds every destination in place: it converts nothing,
    fails nothing, and skips every candidate, which is as many as the
    first run converted and skipped together. *)
Theorem rerun_skips_everything w t1 w1 :
  main w = (Ok t1, w1) ->
  count_failed t1 = 0 ->
  exists t2 w2,
    main w1 = (Ok t2, w2)
    /\ count_done t2 = 0
    /\ count_failed t2 = 0
    /\ count_skipped t2 = count_done t1 + count_skipped t1
    /\ count_total t2 = count_total t1.
Proof.
  intros M F.
  destruct (exists_ IN_DIR (fs w)) eqn:X;
    [|rewrite (main_missing w X) in M; discriminate].
  destruct (main_returns w X) as (t & wa & M' & Fs & L & Sum & _ & _ & _ & T).
  rewrite M' in M. inversion M; subst t1 w1. clear M.
  unfold exists_ in X.
  destruct (lookup IN_DIR (fs w)) as [root|] eqn:Lw; [|discriminate].
  destruct (T root eq_refl) as [Tot Ex]. specialize (Ex F).
  set (w1 := printed wa (report (cwd w) t)) in *.
  assert (L1 : lookup IN_DIR (fs w1) = Some root) by (now rewrite Fs, L).
  pose proof (for_each_all_skipped (rglob root) tally0 w1 root
                (rglob_nonempty root) L1) as R.
  rewrite Fs in R. specialize (R Ex).
  eexists _, _. split.
  - apply (main_present w1 root _ w1 L1 R eq_refl).
  - simpl. rewrite <- Tot. repeat split; lia.
Qed.

(** C10, amended.  The first call of [convert_one] is the creation of the
    chain of directories above the destination.  When no regular file lies
    on that chain, the source is opened next, and however the conversion
    ends -- returned, or failed at decoding, mode conversion or encoding --
    every directory of the chain exists afterwards.  When a regular file
    lies on the chain, the creation raises, the source is not opened and
    the tree is left as it was. *)
Theorem parent_directories_are_made src dst w r w' :
  convert_one src dst w = (r, w') ->
  exists l,
    calls w' = calls w ++ EvMkdir (PurePath.parent dst) :: l
    /\ ((forall q, is_prefix q (PurePath.parent dst) ->
         is_file q (fs w) = false) ->
        (forall q, is_prefix q (PurePath.parent dst) ->
         is_dir q (fs w') = true)
        /\ exists l', l = EvOpen src :: l')
    /\ ((exists q, is_prefix q (PurePath.parent dst)
                   /\ is_file q (fs w) = true) ->
        l = [] /\ fs w' = fs w /\ exists e, r = Raise (Exc e)).
Proof.
  intros H. rewrite convert_one_unfold in H. unfold bind at 1 in H.
  destruct (mkdir_p (PurePath.parent dst) (fs w)) as [e|n1] eqn:Mk.
  - rewrite (Path_mkdir_fails _ _ _ Mk) in H. inversion H; subst.
    exists []. split; [reflexivity|]. split.
    + intros NF. destruct (mkdir_p_fails _ _ _ Mk) as (q & r0 & E & Fq).
      rewrite (NF q) in Fq; [discriminate | now exists r0].
    + intros _. simpl. eauto.
  - rewrite (Path_mkdir_ok _ _ _ Mk) in H.
    set (wa := with_fs (logged w [EvMkdir (PurePath.parent dst)]) n1) in *.
    change (bind (Image_open src) (fun im => with_block src dst im) wa)
      with (bind (n <- get_fs ;;
                  match lookup src n with
                  | Some (File c) => lift (decode c)
                  | Some (Dir _) =>
                      raise (Exc (IsADirectoryError "Is a directory"))
                  | None =>
                      raise (Exc (FileNotFoundError "No such file or directory"))
                  end)
                 (fun im => with_block src dst im)
                 (logged wa [EvOpen src])) in H.
    pose proof (changed_below_refl (PurePath.parent dst)) as R.
    pose proof (@changed_below_trans (PurePath.parent dst)) as T.
    assert (Rel : fs_rel (changed_below (PurePath.parent dst))
                    (bind (n <- get_fs ;;
                  match lookup src n with
                  | Some (File c) => lift (decode c)
                  | Some (Dir _) =>
                      raise (Exc (IsADirectoryError "Is a directory"))
                  | None =>
                      raise (Exc (FileNotFoundError "No such file or directory"))
                  end)
                 (fun im => with_block src dst im))).
    { apply fs_rel_bind; auto using with_block_rel.
      apply fs_rel_bind; auto using fs_rel_get_fs. intros n.
      destruct (lookup src n) as [[c|es]|];
        auto using fs_rel_lift, fs_rel_raise_exc. }
    destruct (Rel _ _ _ H) as ([K _] & _ & _ & (l' & Cl) & _).
    exists (EvOpen src :: l'). split.
    { rewrite Cl. simpl. now rewrite <- !app_assoc. }
    assert (Dn : forall q, is_prefix q (PurePath.parent dst) ->
                           is_dir q (fs w') = true).
    { intros q (r0 & E). apply keeps_is_dir with (a := n1); auto.
      apply is_dir_prefix with (r := r0). rewrite <- E.
      eapply mkdir_p_is_dir; eauto. }
    split.
    + intros _. split; eauto.
    + intros (q & Pq & Fq). exfalso.
      pose proof (mkdir_p_keeps _ _ _ Mk) as K1.
      pose proof (keeps_is_file _ _ q (keeps_trans _ _ _ K1 K) Fq) as Fq'.
      specialize (Dn q Pq). unfold is_dir, is_file in *.
      destruct (lookup q (fs w')) as [[|]|]; discriminate.
Qed.

End Claims.

(** * The script on concrete trees

    The statements above, at trees that can be run: every hypothesis is
    checked by evaluation.  The image library is [ToyPillow]. *)

Ltac wf_tree :=
  repeat (simpl; match goal with
          | |- _ /\ _ => split
          | |- True => exact I
          | |- NoDup _ => constructor
          | |- ~ _ => intro
          | H : _ \/ _ |- _ => destruct H
          | H : False |- _ => destruct H
          | H : _ = _ |- _ => discriminate H
          end).

(** A run over [tree_sample]: five candidates; three are converted, one of
    them after a mode conversion and one although it cannot seek; one
    fails in the encoder; the directory [dir.tif] and [n.txt] are passed
    over. *)
Example main_on_sample :
  fst (main (fresh tree_sample)) = Ok (mkTally 4 3 0 1)
  /\ stdout (snd (main (fresh tree_sample)))
     = "[FAIL] public/patterns/x.tiff -> public/patterns_png/x.png | encoder error"
       :: report [] (mkTally 4 3 0 1)
  /\ FS.lookup ["public"; "patterns_png"] (fs (snd (main (fresh tree_sample))))
     = Some (Dir [("a.png", File "PNG RGB xx");
                  ("sub", Dir [("b.png", File "PNG RGB yy");
                               ("s.png", File "PNG RGB zz")])]).
Proof. vm_compute. repeat split. Qed.

Example suffix_examples :
  PurePath.suffix ["a"; "b"; "img.tiff"] = ".tiff"
  /\ PurePath.suffix_of_name ".tif" = ""
  /\ PurePath.suffix_of_name "x.y.TIF" = ".TIF"
  /\ PurePath.suffix_of_name "x." = ""
  /\ PurePath.with_suffix ["a"; "x.y.TIF"] ".png" = inr ["a"; "x.y.png"]
  /\ Str.of_Z 12 = "12".
Proof. repeat split. Qed.

(** C1: the claim fails where the input path is a regular file: it is not
    there as a directory, and yet the run is not fatal; it prints a report
    of zeros and returns. *)
Lemma main_not_fatal_on_file_root :
  FS.is_dir IN_DIR (fs (fresh tree_file_root)) = false
  /\ main (fresh tree_file_root)
     = (Ok tally0, printed (fresh tree_file_root) (report [] tally0)).
Proof. vm_compute. split; reflexivity. Qed.

(** C1 at a tree without [public/patterns] *)
Lemma main_fatal_iff_missing_witness :
  FS.exists_ IN_DIR (fs (fresh (Dir []))) = false
  /\ exists msg,
       main (fresh (Dir [])) = (Raise (SystemExit msg), fresh (Dir []))
       /\ Str.occurs_in "/public/patterns" msg.
Proof.
  split; [reflexivity|].
  exact (proj2 (main_fatal_iff_missing (fresh (Dir []))) eq_refl).
Defined.

(** C2 at [tree_sample] *)
Lemma tallies_add_up_witness :
  FS.exists_ IN_DIR (fs (fresh tree_sample)) = true
  /\ exists t w1,
       main (fresh tree_sample) = (Ok t, printed w1 (report [] t))
       /\ count_done t + count_skipped t + count_failed t = count_total t
       /\ 0 <= count_total t /\ 0 <= count_done t
       /\ 0 <= count_skipped t /\ 0 <= count_failed t.
Proof.
  split; [reflexivity|].
  exact (proj1 (tallies_add_up (fresh tree_sample) eq_refl)).
Defined.

(** C3 at [tree_sample], which holds four TIFF files *)
Lemma total_counts_tiff_files_witness :
  FS.lookup IN_DIR (fs (fresh tree_sample))
  = Some (Dir [("a.tif", File "Rxx");
               ("sub", Dir [("b.TIFF", File "Pyy"); ("n.txt", File "R");
                            ("s.Tif", File "Szz")]);
               ("x.tiff", File "Xq");
               ("dir.tif", Dir [])])
  /\ exists t w',
       main (fresh tree_sample) = (Ok t, w') /\ count_total t = 4.
Proof.
  split; [reflexivity|].
  refine (proj1 (total_counts_tiff_files (fresh tree_sample) _ eq_refl _)).
  wf_tree.
Defined.

(** C4 at [a/b/img.tiff] *)
Lemma destination_mirrors_input_witness :
  tiff_name "img.tiff" = true
  /\ destination (IN_DIR ++ ["a"; "b"] ++ ["img.tiff"])
     = inr (OUT_DIR ++ ["a"; "b"] ++ ["img.png"]).
Proof.
  split; [reflexivity|].
  exact (proj1 (destination_mirrors_input ["a"; "b"] "img.tiff" eq_refl)).
Defined.

(** C5 at [tree_converted]: the destination keeps its content *)
Lemma existing_destination_is_skipped_witness :
  let src := ["public"; "patterns"; "a.tif"] in
  let dst := ["public"; "patterns_png"; "a.png"] in
  let w := fresh tree_converted in
  (is_candidate src (fs w) = true
   /\ destination src = inr dst
   /\ FS.is_file dst (fs w) = true)
  /\ loop_body src tally0 w = (Ok (mkTally 1 0 1 0), w)
  /\ FS.lookup dst (fs (snd (main w))) = Some (File "sentinel")
  /\ fst (main w) = Ok (mkTally 1 0 1 0).
Proof.
  intros src dst w. split; [repeat split|].
  split; [|split; reflexivity].
  exact (proj1 (proj2 (existing_destination_is_skipped
                         src dst tally0 w [] eq_refl eq_refl eq_refl))).
Defined.

(** C6 at the file of [tree_mixed] that is not an image *)
Lemma failed_conversion_is_counted_witness :
  let src := ["public"; "patterns"; "bad.tif"] in
  let dst := ["public"; "patterns_png"; "bad.png"] in
  let w := fresh tree_mixed in
  let e := mkExc "UnidentifiedImageError" "cannot identify image file" in
  let w1 := snd (convert_one src dst w) in
  (is_candidate src (fs w) = true
   /\ destination src = inr dst
   /\ FS.exists_ dst (fs w) = false
   /\ convert_one src dst w = (Raise (Exc e), w1))
  /\ fst (loop_body src tally0 w) = Ok (mkTally 1 0 0 1)
  /\ stdout (snd (loop_body src tally0 w))
     = ["[FAIL] public/patterns/bad.tif -> public/patterns_png/bad.png | cannot identify image file"].
Proof.
  intros src dst w e w1. split; [repeat split|].
  pose proof (proj1 (failed_conversion_is_counted
                       src dst tally0 w e w1 [] eq_refl eq_refl eq_refl eq_refl))
    as H.
  rewrite H. split; reflexivity.
Defined.

(** C7 at the palette image of [tree_sample] *)
Lemma mode_is_normalized_witness :
  let src := ["public"; "patterns"; "sub"; "b.TIFF"] in
  let dst := ["public"; "patterns_png"; "sub"; "b.png"] in
  let w := fresh tree_sample in
  let n1 := match FS.mkdir_p (PurePath.parent dst) (fs w) with
            | inr n => n
            | inl _ => Dir []
            end in
  let im0 := mkToy "P" true true "yy" in
  (FS.mkdir_p (PurePath.parent dst) (fs w) = inr n1
   /\ FS.lookup src n1 = Some (File "Pyy")
   /\ decode "Pyy" = inr im0)
  /\ exists r w' l,
       convert_one src dst w = (r, w')
       /\ calls w' = calls w
                     ++ [EvMkdir (PurePath.parent dst); EvOpen src; EvSeek 0]
                     ++ l ++ [EvClose src]
       /\ l = [EvConvert "RGB"; EvSave (mkToy "RGB" true true "yy") dst].
Proof.
  intros src dst w n1 im0. split; [repeat split|].
  exact (mode_is_normalized src dst w n1 "Pyy" im0 eq_refl eq_refl eq_refl).
Defined.

(** C8 at the image of [tree_sample] that cannot seek *)
Lemma seek_failure_is_swallowed_witness :
  let src := ["public"; "patterns"; "sub"; "s.Tif"] in
  let dst := ["public"; "patterns_png"; "sub"; "s.png"] in
  let w := fresh tree_sample in
  let n1 := match FS.mkdir_p (PurePath.parent dst) (fs w) with
            | inr n => n
            | inl _ => Dir []
            end in
  let im0 := mkToy "RGB" false true "zz" in
  let e := mkExc "EOFError" "no more images in file" in
  (FS.mkdir_p (PurePath.parent dst) (fs w) = inr n1
   /\ FS.lookup src n1 = Some (File "Szz")
   /\ decode "Szz" = inr im0
   /\ seek im0 0 = inl e)
  /\ exists w', convert_one src dst w = (Ok tt, w').
Proof.
  intros src dst w n1 im0 e. split; [repeat split|].
  refine (proj2 (seek_failure_is_swallowed
                   src dst w n1 "Szz" im0 e eq_refl eq_refl eq_refl eq_refl)
            "PNG RGB zz" eq_refl eq_refl _ eq_refl).
  discriminate.
Defined.

(** C9: the claim fails on [tree_mixed].  The first run converts one
    image, skips its twin and fails on the file that is not an image; the
    second run skips two, not one, and fails again. *)
Lemma rerun_differs_on_mixed_tree :
  let r1 := main (fresh tree_mixed) in
  let r2 := main (snd r1) in
  fst r1 = Ok (mkTally 3 1 1 1)
  /\ fst r2 = Ok (mkTally 3 0 2 1)
  /\ count_skipped (mkTally 3 0 2 1) <> count_done (mkTally 3 1 1 1)
  /\ count_failed (mkTally 3 0 2 1) <> 0.
Proof. vm_compute. repeat split; discriminate. Qed.

(** C9 at [tree_twins], whose first run fails nothing *)
Lemma rerun_skips_everything_witness :
  let w := fresh tree_twins in
  let t1 := mkTally 2 1 1 0 in
  let w1 := snd (main w) in
  (main w = (Ok t1, w1) /\ count_failed t1 = 0)
  /\ exists t2 w2,
       main w1 = (Ok t2, w2)
       /\ count_done t2 = 0
       /\ count_failed t2 = 0
       /\ count_skipped t2 = count_done t1 + count_skipped t1
       /\ count_total t2 = count_total t1.
Proof.
  intros w t1 w1. split; [split; vm_compute; reflexivity|].
  apply (rerun_skips_everything w t1 w1); vm_compute; reflexivity.
Defined.

(** C10: the claim fails on [tree_blocked], where a regular file sits at
    [public/patterns_png].  The loop finds no destination, calls
    [convert_one], the creation of the directory raises, and after this
    conversion attempt the parent of the destination is no directory. *)
Lemma parent_missing_after_blocked_attempt :
  let src := ["public"; "patterns"; "a.tif"] in
  let dst := ["public"; "patterns_png"; "a.png"] in
  let w := fresh tree_blocked in
  destination src = inr dst
  /\ fst (convert_one src dst w) = Raise (Exc (FileExistsError "File exists"))
  /\ FS.is_dir (PurePath.parent dst) (fs (snd (convert_one src dst w))) = false
  /\ fst (main w) = Ok (mkTally 1 0 0 1).
Proof. vm_compute. repeat split. Qed.

(** C10 at the image of [tree_sample] that the encoder rejects *)
Lemma parent_directories_are_made_witness :
  let src := ["public"; "patterns"; "x.tiff"] in
  let dst := ["public"; "patterns_png"; "x.png"] in
  let w := fresh tree_sample in
  let r := fst (convert_one src dst w) in
  let w' := snd (convert_one src dst w) in
  (convert_one src dst w = (r, w')
   /\ r = Raise (Exc (mkExc "OSError" "encoder error")))
  /\ exists l,
       calls w' = calls w ++ EvMkdir (PurePath.parent dst) :: l
       /\ FS.is_dir ["public"; "patterns_png"] (fs w') = true.
Proof.
  intros src dst w r w'. split; [split; reflexivity|].
  destruct (parent_directories_are_made src dst w r w' eq_refl)
    as (l & C & D & _).
  exists l. split; [exact C|].
  refine (proj1 (D _) _ _).
  - intros q (r0 & E).
    destruct q as [|a [|b [|c q]]]; try discriminate E;
      inversion E; subst; reflexivity.
  - exists []. reflexivity.
Defined.

(** * Further properties of the tree operations *)

Module FSMore.
Import FS FSFacts.

Lemma keeps_files_refl n : keeps_files n n.
Proof. now intros q c. Qed.

Lemma keeps_files_trans a b c :
  keeps_files a b -> keeps_files b c -> keeps_files a c.
Proof. intros H1 H2 q x E. eauto. Qed.

Lemma new_chain_lookup p : forall q,
  lookup q (new_chain p) <> None -> exists r, p = q ++ r.
Proof.
  induction p as [|x p IH]; intros [|y q] H; simpl in *; eauto.
  - congruence.
  - destruct (String.eqb y x) eqn:E; [|congruence].
    apply String.eqb_eq in E. subst y.
    destruct (IH q H) as (r & ->). now exists r.
Qed.

(** What [mkdir_p] adds lies on the chain it was asked for. *)
Lemma mkdir_p_new p : forall n n' q,
  mkdir_p p n = inr n' -> lookup q n' <> None ->
  lookup q n <> None \/ exists r, p = q ++ r.
Proof.
  induction p as [|x p IH]; intros [c|es] n' q H N; simpl in H;
    try discriminate.
  - inversion H; subst. auto.
  - destruct q as [|y q]; [left; discriminate|].
    destruct (String.eqb x y) eqn:E.
    + apply String.eqb_eq in E. subst y.
      destruct (assoc x es) as [ch|] eqn:A.
      * destruct (mkdir_p p ch) as [e|ch'] eqn:M; inversion H; subst.
        rewrite lookup_set_entry_eq in N.
        destruct (IH _ _ _ M N) as [L|(r & ->)].
        -- left. simpl. now rewrite A.
        -- right. now exists r.
      * inversion H; subst. rewrite lookup_set_entry_eq in N.
        destruct (new_chain_lookup _ _ N) as (r & ->). right. now exists r.
    + apply String.eqb_neq in E. left.
      destruct (assoc x es) as [ch|] eqn:A.
      * destruct (mkdir_p p ch) as [e|ch'] eqn:M; inversion H; subst.
        now rewrite lookup_set_entry_neq in N.
      * inversion H; subst. now rewrite lookup_set_entry_neq in N.
Qed.

Lemma mkdir_p_keeps_files p : forall n n',
  mkdir_p p n = inr n' -> keeps_files n n'.
Proof.
  induction p as [|x p IH]; intros [c|es] n' H; simpl in H; try discriminate.
  - inversion H. apply keeps_files_refl.
  - intros [|y q] c0 L; [discriminate|].
    destruct (String.eqb x y) eqn:E.
    + apply String.eqb_eq in E. subst y. simpl in L.
      destruct (assoc x es) as [ch|] eqn:A; [|discriminate].
      destruct (mkdir_p p ch) as [e|ch'] eqn:M; inversion H; subst.
      rewrite lookup_set_entry_eq. eapply IH; eauto.
    + apply String.eqb_neq in E.
      destruct (assoc x es) as [ch|] eqn:A.
      * destruct (mkdir_p p ch) as [e|ch'] eqn:M; inversion H; subst.
        now rewrite lookup_set_entry_neq.
      * inversion H; subst. now rewrite lookup_set_entry_neq.
Qed.

(** Making directories again where they are changes nothing. *)
Lemma set_entry_same x c es : assoc x es = Some c -> set_entry x c es = es.
Proof.
  induction es as [|[y d] es IH]; simpl; [discriminate|].
  destruct (String.eqb x y) eqn:E.
  - intros H. inversion H. reflexivity.
  - intros H. now rewrite IH.
Qed.

Lemma mkdir_p_existing p : forall n, is_dir p n = true -> mkdir_p p n = inr n.
Proof.
  unfold is_dir.
  induction p as [|x p IH]; intros [c|es] H; simpl in *; try discriminate; auto.
  destruct (assoc x es) as [ch|] eqn:A; [|discriminate].
  rewrite (IH ch H). now rewrite set_entry_same.
Qed.

Lemma write_file_keeps_other_files p c : forall n n' q c0,
  write_file p c n = inr n' -> lookup q n = Some (File c0) -> q <> p ->
  lookup q n' = Some (File c0).
Proof.
  induction p as [|x p IH]; intros [c1|es] n' q c0 H L N; simpl in H;
    try discriminate.
  - destruct q; [congruence | discriminate].
  - destruct q as [|y q]; [discriminate|].
    destruct (String.eqb x y) eqn:E.
    + apply String.eqb_eq in E. subst y. simpl in L.
      destruct (assoc x es) as [ch|] eqn:A; [|discriminate].
      destruct (write_file p c ch) as [e|ch'] eqn:W; inversion H; subst.
      rewrite lookup_set_entry_eq. eapply IH; eauto. congruence.
    + apply String.eqb_neq in E.
      destruct (assoc x es) as [ch|] eqn:A.
      * destruct (write_file p c ch) as [e|ch'] eqn:W; inversion H; subst.
        now rewrite lookup_set_entry_neq.
      * destruct p; inversion H; subst. now rewrite lookup_set_entry_neq.
Qed.

Lemma remove_file_keeps_other_files p : forall n q c0,
  lookup q n = Some (File c0) -> q <> p ->
  lookup q (remove_file p n) = Some (File c0).
Proof.
  induction p as [|x p IH]; intros [c1|es] [|y q] c0 L N; auto;
    try discriminate.
  simpl remove_file.
  destruct (assoc x es) as [ch|] eqn:A; auto.
  destruct (String.eqb x y) eqn:E.
  - apply String.eqb_eq in E. subst y.
    simpl in L. rewrite A in L.
    destruct p as [|x' p].
    + destruct ch as [c|es']; [|now simpl; rewrite A].
      destruct q; [congruence | discriminate].
    + rewrite lookup_set_entry_eq. apply IH; auto. congruence.
  - apply String.eqb_neq in E.
    destruct p as [|x' p].
    + destruct ch; auto. simpl. rewrite assoc_del_entry_neq; auto.
    + now rewrite lookup_set_entry_neq.
Qed.

End FSMore.

(** * Further properties of [convert_one] *)

Section ConvertMore.

Context {P : Pillow}.
Import FS FSFacts FSMore PathFacts.

(** A save to a path that holds nothing leaves every file as it is,
    whether the encoder raises or not. *)
Lemma Image_save_absent_keeps_files im dst opt w r w' :
  exists_ dst (fs w) = false ->
  Image_save im dst opt w = (r, w') ->
  keeps_files (fs w) (fs w').
Proof.
  intros X H.
  assert (Ne : forall q c, lookup q (fs w) = Some (File c) -> q <> dst).
  { intros q c L ->. unfold exists_ in X. now rewrite L in X. }
  unfold Image_save, bind, log, get_fs, put_fs, lift, ret, raise in H.
  simpl in H. rewrite X in H. simpl in H.
  destruct (write_file dst "" (fs w)) as [e|n1] eqn:W; simpl in H.
  { inversion H; subst. apply keeps_files_refl. }
  assert (K1 : keeps_files (fs w) n1).
  { intros q c L. eapply write_file_keeps_other_files; eauto. }
  destruct (encode_png im opt) as [[e partial]|bytes]; simpl in H.
  - inversion H; subst; simpl. intros q c L.
    apply remove_file_keeps_other_files; eauto.
  - destruct (write_file dst bytes n1) as [e2|n2] eqn:W2; simpl in H;
      inversion H; subst; simpl; auto.
    intros q c L. eapply write_file_keeps_other_files; eauto.
Qed.

(** A save that returns has written what the encoder gave. *)
Lemma Image_save_ok_content im dst opt w w' :
  Image_save im dst opt w = (Ok tt, w') ->
  exists bytes,
    encode_png im opt = inr bytes /\ lookup dst (fs w') = Some (File bytes).
Proof.
  intros H.
  unfold Image_save, bind, log, get_fs, put_fs, lift, ret, raise in H.
  simpl in H.
  destruct (write_file dst "" (fs w)) as [e|n1] eqn:W; simpl in H;
    [discriminate|].
  destruct (encode_png im opt) as [[e partial]|bytes]; simpl in H.
  - destruct (exists_ dst (fs w)); simpl in H;
      [destruct (write_file dst partial n1); simpl in H|]; discriminate.
  - destruct (write_file dst bytes n1) as [e2|n2] eqn:W2; simpl in H;
      inversion H; subst; simpl.
    exists bytes. split; auto. eapply write_file_is_file; eauto.
Qed.

(** What [Image.open] raises on the tree [n], if it does *)
Lemma convert_one_open_fails src dst w n1 e :
  mkdir_p (PurePath.parent dst) (fs w) = inr n1 ->
  match lookup src n1 with
  | Some (File c) => decode c
  | Some (Dir _) => inl (IsADirectoryError "Is a directory")
  | None => inl (FileNotFoundError "No such file or directory")
  end = inl e ->
  convert_one src dst w =
  (Raise (Exc e),
   mkWorld n1 (cwd w) (stdout w)
     (calls w ++ [EvMkdir (PurePath.parent dst); EvOpen src])).
Proof.
  intros Hm Ho. rewrite convert_one_unfold.
  unfold bind at 1. rewrite (Path_mkdir_ok _ _ _ Hm).
  unfold bind at 1, Image_open, bind at 1 2, log, get_fs. simpl.
  rewrite <- !app_assoc. simpl.
  destruct (lookup src n1) as [[c|es]|].
  - rewrite Ho. reflexivity.
  - inversion Ho. reflexivity.
  - inversion Ho. reflexivity.
Qed.

(** The ways a call of [convert_one] can go, and the tree each leaves *)
Lemma convert_one_shape src dst w r w' :
  convert_one src dst w = (r, w') ->
  (exists e,
     mkdir_p (PurePath.parent dst) (fs w) = inl e
     /\ fs w' = fs w /\ r = Raise (Exc e))
  \/ (exists n1,
        mkdir_p (PurePath.parent dst) (fs w) = inr n1
        /\ ((fs w' = n1 /\ exists e, r = Raise (Exc e))
            \/ (exists c im0 im ws ws',
                  lookup src n1 = Some (File c)
                  /\ decode c = inr im0
                  /\ (if in_ (mode (after_seek im0)) ["RGB"; "RGBA"]
                      then im = after_seek im0
                      else convert (after_seek im0) "RGB" = inr im)
                  /\ fs ws = n1
                  /\ Image_save im dst true ws = (r, ws')
                  /\ fs w' = fs ws'))).
Proof.
  intros H.
  destruct (mkdir_p (PurePath.parent dst) (fs w)) as [e|n1] eqn:Mk.
  { left. exists e. rewrite convert_one_unfold in H. unfold bind at 1 in H.
    rewrite (Path_mkdir_fails _ _ _ Mk) in H. inversion H; subst. auto. }
  right. exists n1. split; [reflexivity|].
  destruct (match lookup src n1 with
            | Some (File c) => decode c
            | Some (Dir _) => inl (IsADirectoryError "Is a directory")
            | None => inl (FileNotFoundError "No such file or directory")
            end) as [e|im0] eqn:Op.
  { rewrite (convert_one_open_fails src dst w n1 e Mk Op) in H.
    inversion H; subst. left. simpl. eauto. }
  destruct (lookup src n1) as [[c|es]|] eqn:L; try discriminate.
  rewrite (convert_one_opened src dst w n1 c im0 Mk L Op) in H.
  set (w1 := mkWorld n1 (cwd w) (stdout w) _) in H.
  unfold finally_, from_mode_check, Image_close, log in H.
  destruct (in_ (mode (after_seek im0)) ["RGB"; "RGBA"]) eqn:Mo;
    cbn [negb] in H.
  - unfold bind at 1, ret in H.
    destruct (Image_save (after_seek im0) dst true w1) as [rs ws'] eqn:Sv.
    inversion H; subst. right.
    exists c, im0, (after_seek im0), w1, ws'. rewrite Mo. auto 10.
  - unfold bind at 1, Image_convert, bind at 1, log, lift in H. simpl in H.
    destruct (convert (after_seek im0) "RGB") as [e|im] eqn:Cv; simpl in H.
    + inversion H; subst. left. simpl. eauto.
    + match type of H with context [Image_save im dst true ?x] =>
        set (ws := x) in H;
        destruct (Image_save im dst true ws) as [rs ws'] eqn:Sv end.
      inversion H; subst. right.
      exists c, im0, im, ws, ws'. rewrite Mo. auto 10.
Qed.

(** A destination is never the parent of itself or above it. *)
Lemma not_prefix_of_parent (dst : path) :
  dst <> [] -> forall r, PurePath.parent dst <> dst ++ r.
Proof.
  intros N r E. apply (f_equal (@List.length string)) in E.
  rewrite (path_split dst N) in E at 2.
  rewrite !length_app in E. simpl in E. lia.
Qed.

(** Creating the chain above [dst] does not create [dst]. *)
Lemma mkdir_parent_keeps_absent dst n n1 :
  dst <> [] ->
  mkdir_p (PurePath.parent dst) n = inr n1 ->
  exists_ dst n = false -> exists_ dst n1 = false.
Proof.
  unfold exists_. intros N Mk X.
  destruct (lookup dst n1) eqn:L; auto.
  destruct (mkdir_p_new _ _ _ dst Mk) as [Q|(r & Q)].
  - congruence.
  - destruct (lookup dst n); [discriminate | congruence].
  - now apply not_prefix_of_parent in Q.
Qed.

(** A conversion to a path that holds nothing leaves every file that was
    there with the bytes it had. *)
Lemma convert_one_keeps_files src dst w r w' :
  dst <> [] -> exists_ dst (fs w) = false ->
  convert_one src dst w = (r, w') ->
  keeps_files (fs w) (fs w').
Proof.
  intros N X H.
  destruct (convert_one_shape _ _ _ _ _ H)
    as [(e & _ & E & _)|(n1 & Mk & [(E & _)|S])].
  - rewrite E. apply keeps_files_refl.
  - rewrite E. eapply mkdir_p_keeps_files; eauto.
  - destruct S as (c & im0 & im & ws & ws' & _ & _ & _ & Fs & Sv & E).
    rewrite E.
    apply keeps_files_trans with (b := n1);
      [eapply mkdir_p_keeps_files; eauto|].
    rewrite <- Fs. eapply Image_save_absent_keeps_files; eauto.
    rewrite Fs. eapply mkdir_parent_keeps_absent; eauto.
Qed.

End ConvertMore.

(** * Further properties of the loop and of [main] *)

Section MainMore.

Context {P : Pillow}.
Import FS FSFacts FSMore PathFacts.

(** A destination is a name below [OUT_DIR]. *)
Lemma destination_shape src dst :
  destination src = inr dst -> exists dirs nm, dst = OUT_DIR ++ dirs ++ [nm].
Proof.
  unfold destination, PurePath.with_suffix, PurePath.joinpath.
  destruct (PurePath.relative_to src IN_DIR) as [e|rel]; [discriminate|].
  destruct (String.eqb (PurePath.name rel) ""); [discriminate|].
  intros H. inversion H. eexists _, _. reflexivity.
Qed.

Lemma parent_of_destination dirs nm :
  PurePath.parent (OUT_DIR ++ dirs ++ [nm]) = OUT_DIR ++ dirs.
Proof. rewrite app_assoc. apply parent_last. Qed.

(** The ways one turn of the loop can go *)
Lemma loop_body_cases rel t w r w' :
  rel <> [] ->
  loop_body (IN_DIR ++ rel) t w = (r, w') ->
  (r = Ok t /\ w' = w)
  \/ exists dst dirs nm,
       destination (IN_DIR ++ rel) = inr dst
       /\ dst = OUT_DIR ++ dirs ++ [nm]
       /\ is_candidate (IN_DIR ++ rel) (fs w) = true
       /\ ((r = Ok (skipped_one t) /\ w' = w /\ exists_ dst (fs w) = true)
           \/ (exists_ dst (fs w) = false
               /\ ((r = Ok (converted_one t)
                    /\ convert_one (IN_DIR ++ rel) dst w = (Ok tt, w'))
                   \/ exists e w1,
                        r = Ok (failed_one t)
                        /\ convert_one (IN_DIR ++ rel) dst w
                           = (Raise (Exc e), w1)
                        /\ w' = printed w1
                                  [fail_line (IN_DIR ++ rel) dst e]))).
Proof.
  intros N H.
  destruct (is_candidate (IN_DIR ++ rel) (fs w)) eqn:C.
  - right.
    assert (T : tiff_name (PurePath.name rel) = true).
    { unfold is_candidate in C. apply andb_prop in C.
      now rewrite name_under in C. }
    pose proof (destination_tiff (PurePath.parent rel) _ T) as D.
    rewrite <- (path_split rel N) in D.
    eexists _, _, _. split; [exact D|]. split; [reflexivity|].
    split; [reflexivity|].
    rewrite (loop_body_candidate _ _ t _ C D) in H.
    match type of H with context [exists_ ?d (fs w)] =>
      destruct (exists_ d (fs w)) eqn:X end.
    + left. inversion H; subst. auto.
    + right. split; [reflexivity|].
      match type of H with context [convert_one ?s ?d w] =>
        destruct (convert_one s d w) as [rc wc] eqn:CO end.
      destruct (convert_one_rel _ _ _ _ _ CO) as (_ & _ & _ & _ & NX).
      destruct rc as [[]|[e|m]].
      * left. inversion H; subst. auto.
      * right. inversion H; subst. eauto.
      * now destruct (NX m).
  - left. rewrite (loop_body_not_candidate _ t _ C) in H.
    inversion H; subst. auto.
Qed.

(** A relation between the world before and the world after that every
    turn of the loop keeps is kept by the whole loop, and by [main] if
    printing keeps it too. *)
Section Invariant.

Variable J : world -> world -> Prop.
Hypothesis J_refl : forall w, J w w.
Hypothesis J_trans : forall a b c, J a b -> J b c -> J a c.
Hypothesis J_step : forall rel t w r w',
  rel <> [] -> loop_body (IN_DIR ++ rel) t w = (r, w') -> J w w'.
Hypothesis J_print : forall w l, J w (printed w l).

Lemma for_each_invariant rels : forall t w r w',
  Forall (fun rel => rel <> []) rels ->
  for_each (map (PurePath.joinpath IN_DIR) rels) loop_body t w = (r, w') ->
  J w w'.
Proof.
  induction rels as [|rel rels IH]; intros t w r w' NE H.
  - inversion H; subst. apply J_refl.
  - inversion NE as [|? ? N NE']; subst.
    cbn [map] in H. rewrite for_each_cons in H.
    unfold PurePath.joinpath at 1, bind in H.
    destruct (loop_body (IN_DIR ++ rel) t w) as [[t1|x] w1] eqn:B.
    + eapply J_trans; [eapply J_step; eauto | eapply IH; eauto].
    + inversion H; subst. eapply J_step; eauto.
Qed.

Lemma main_invariant w r w' : main w = (r, w') -> J w w'.
Proof.
  intros H. destruct (exists_ IN_DIR (fs w)) eqn:X.
  - unfold exists_ in X.
    destruct (lookup IN_DIR (fs w)) as [root|] eqn:L; [|discriminate].
    destruct (for_each_loop (rglob root) tally0 w root
                (rglob_nonempty root) L)
      as (t & w1 & R & _ & _ & C & _).
    rewrite (main_present w root t w1 L R C) in H. inversion H; subst.
    eapply J_trans; [|apply J_print].
    eapply for_each_invariant; eauto using rglob_nonempty.
  - rewrite (main_missing w X) in H. inversion H; subst. apply J_refl.
Qed.

End Invariant.

(** What a turn of the loop does to the tree: changes at [OUT_DIR] and
    below only, and no file that was there is lost or rewritten. *)
Lemma loop_body_tree rel t w r w' :
  rel <> [] -> loop_body (IN_DIR ++ rel) t w = (r, w') ->
  same_outside OUT_DIR (fs w) (fs w') /\ keeps_files (fs w) (fs w').
Proof.
  intros N H.
  destruct (loop_body_cases rel t w r w' N H)
    as [[_ ->]|(dst & dirs & nm & D & Sh & _ & [(_ & -> & _)|(X & Cv)])].
  - split; [now intros q _ | apply keeps_files_refl].
  - split; [now intros q _ | apply keeps_files_refl].
  - assert (Nd : dst <> []) by (subst dst; discriminate).
    assert (G : forall rc wc,
              convert_one (IN_DIR ++ rel) dst w = (rc, wc) ->
              same_outside OUT_DIR (fs w) (fs wc)
              /\ keeps_files (fs w) (fs wc)).
    { intros rc wc CO. split.
      - destruct (convert_one_rel _ _ _ _ _ CO) as ([_ F] & _).
        intros q Dq. apply F. subst dst. rewrite parent_of_destination.
        now apply diverge_app.
      - eapply convert_one_keeps_files; eauto. }
    destruct Cv as [(_ & CO)|(e & w1 & _ & CO & ->)];
      [|simpl]; exact (G _ _ CO).
Qed.

Lemma main_tree w r w' :
  main w = (r, w') ->
  same_outside OUT_DIR (fs w) (fs w') /\ keeps_files (fs w) (fs w').
Proof.
  apply (main_invariant
           (fun a b => same_outside OUT_DIR (fs a) (fs b)
                       /\ keeps_files (fs a) (fs b))).
  - intros a. split; [now intros q _ | apply keeps_files_refl].
  - intros a b c [S1 K1] [S2 K2]. split.
    + intros q D. now rewrite S2, S1.
    + eapply keeps_files_trans; eauto.
  - intros rel t a ra b. apply loop_body_tree.
  - intros a l. split; [now intros q _ | apply keeps_files_refl].
Qed.

End MainMore.

(** * Which names are candidates *)

Module NameFacts.
Import PathFacts.

Lemma lower_ascii_dot a :
  Ascii.eqb (Str.lower_ascii a) "." = Ascii.eqb a ".".
Proof. destruct a as [[] [] [] [] [] [] [] []]; reflexivity. Qed.

Lemma rfind_from_lower s : forall i,
  Str.rfind_from "." (Str.lower s) i = Str.rfind_from "." s i.
Proof.
  induction s as [|a s IH]; intros i; simpl; auto.
  now rewrite IH, lower_ascii_dot.
Qed.

Lemma length_lower s : String.length (Str.lower s) = String.length s.
Proof. induction s; simpl; congruence. Qed.

Lemma drop_lower n : forall s, Str.drop n (Str.lower s) = Str.lower (Str.drop n s).
Proof. induction n; intros [|a s]; simpl; auto. Qed.

Lemma lower_append a b : Str.lower (a ^^ b) = Str.lower a ^^ Str.lower b.
Proof. induction a; simpl; congruence. Qed.

(** Lowering a name and taking its suffix can be done in either order. *)
Lemma suffix_lower nm :
  PurePath.suffix_of_name (Str.lower nm)
  = Str.lower (PurePath.suffix_of_name nm).
Proof.
  unfold PurePath.suffix_of_name, Str.rfind, Str.len.
  rewrite rfind_from_lower, length_lower.
  destruct (_ && _); [apply drop_lower | reflexivity].
Qed.

Lemma len_append a b : Str.len (a ^^ b) = Str.len a + Str.len b.
Proof.
  unfold Str.len. induction a; simpl String.length; [reflexivity|].
  rewrite !Nat2Z.inj_succ. simpl in IHa. lia.
Qed.

Lemma drop_append a b : Str.drop (String.length a) (a ^^ b) = b.
Proof. induction a; simpl; auto. Qed.

Lemma rfind_from_app c b a : forall i,
  Str.rfind_from c b (i + Str.len a + 1) = -1 -> 0 <= i ->
  Str.rfind_from c (a ^^ String c b) i = i + Str.len a.
Proof.
  unfold Str.len. induction a as [|x a IH]; intros i H Hi.
  - simpl in *. rewrite Z.add_0_r in *. rewrite H. simpl.
    now rewrite Ascii.eqb_refl.
  - simpl String.length in *. rewrite Nat2Z.inj_succ in *.
    simpl append. simpl Str.rfind_from.
    rewrite IH; [|rewrite <- H; f_equal; lia | lia].
    destruct (0 <=? i + 1 + Z.of_nat (String.length a)) eqn:E;
      [lia | apply Z.leb_gt in E; lia].
Qed.

(** The suffix of [stem.ext] is [.ext] when [stem] is not empty and [ext]
    is not empty and holds no dot. *)
Lemma suffix_of_append stem b :
  stem <> "" -> b <> "" ->
  (forall i, Str.rfind_from "." b i = -1) ->
  PurePath.suffix_of_name (stem ^^ String "." b) = String "." b.
Proof.
  intros Ns Nb Nd. unfold PurePath.suffix_of_name, Str.rfind.
  rewrite (rfind_from_app "." b stem 0) by (auto; lia).
  rewrite len_append. unfold Str.len. simpl String.length.
  assert (0 < String.length stem)%nat by (destruct stem; simpl; [congruence|lia]).
  assert (0 < String.length b)%nat by (destruct b; simpl; [congruence|lia]).
  destruct (_ && _) eqn:C.
  - simpl. rewrite Nat2Z.id. apply drop_append.
  - apply andb_false_iff in C. destruct C as [C|C];
      [apply Z.ltb_ge in C | apply Z.ltb_ge in C]; lia.
Qed.

Lemma suffix_shorter nm :
  nm <> "" ->
  (String.length (PurePath.suffix_of_name nm) < String.length nm)%nat.
Proof.
  intros N. assert (0 < String.length nm)%nat
    by (destruct nm; simpl; [congruence|lia]).
  unfold PurePath.suffix_of_name.
  destruct (_ && _) eqn:C; [|simpl; lia].
  apply andb_prop in C. destruct C as [C _]. apply Z.ltb_lt in C.
  rewrite length_drop. lia.
Qed.

Lemma stem_nonempty nm :
  PurePath.suffix_of_name nm <> "" -> PurePath.stem_of_name nm <> "".
Proof.
  intros S E. pose proof (stem_suffix nm) as D. rewrite E in D. simpl in D.
  assert (N : nm <> "") by (intros ->; now apply S).
  pose proof (suffix_shorter nm N) as L. rewrite <- D in L. lia.
Qed.

Lemma append_inj_l t : forall a b, a ^^ t = b ^^ t -> a = b.
Proof.
  assert (L : forall x y, String.length (x ^^ y)
                          = (String.length x + String.length y)%nat).
  { induction x; simpl; auto. }
  induction a as [|x a IH]; intros [|y b] H; simpl in H; auto.
  - apply (f_equal String.length) in H. simpl in H. rewrite L in H. lia.
  - apply (f_equal String.length) in H. simpl in H. rewrite L in H. lia.
  - inversion H. f_equal. auto.
Qed.

End NameFacts.

(** * Further properties of the script *)

Section More.

Context {P : Pillow}.
Import FS FSFacts FSMore PathFacts NameFacts TreeFacts.

(** X1.  The names the loop takes as candidates are those made of a stem
    that is not empty and an extension that is ".tif" or ".tiff" up to the
    case of its letters.  A hidden file called ".tif" is none. *)
Theorem tiff_name_iff nm :
  tiff_name nm = true <->
  exists stem ext,
    nm = stem ^^ ext /\ stem <> ""
    /\ (Str.lower ext = ".tif" \/ Str.lower ext = ".tiff").
Proof.
  unfold tiff_name, in_. simpl existsb. split.
  - intros H.
    assert (S : PurePath.suffix_of_name nm <> "")
      by (intros E; rewrite E in H; discriminate).
    exists (PurePath.stem_of_name nm), (PurePath.suffix_of_name nm).
    split; [apply stem_suffix|]. split; [now apply stem_nonempty|].
    apply orb_prop in H. destruct H as [H|H].
    + left. now apply String.eqb_eq.
    + right. rewrite orb_false_r in H. now apply String.eqb_eq.
  - intros (stem & ext & -> & Ns & E).
    rewrite <- suffix_lower, lower_append.
    assert (Nl : Str.lower stem <> "").
    { intros Q. apply (f_equal String.length) in Q.
      rewrite length_lower in Q. destruct stem; simpl in Q; congruence. }
    destruct E as [-> | ->].
    + now rewrite (suffix_of_append (Str.lower stem) "tif" Nl).
    + now rewrite (suffix_of_append (Str.lower stem) "tiff" Nl).
Qed.

(** X2.  Two candidates get the same destination exactly when they lie in
    the same directory and their names have the same stem, as [a.tif],
    [a.tiff] and [a.TIF] do. *)
Theorem same_destination_iff d1 nm1 d2 nm2 :
  tiff_name nm1 = true -> tiff_name nm2 = true ->
  (destination (IN_DIR ++ d1 ++ [nm1]) = destination (IN_DIR ++ d2 ++ [nm2])
   <-> d1 = d2 /\ PurePath.stem_of_name nm1 = PurePath.stem_of_name nm2).
Proof.
  intros T1 T2.
  rewrite (destination_tiff d1 nm1 T1), (destination_tiff d2 nm2 T2). split.
  - intros H. inversion H as [E].
    apply app_inj_tail in E. destruct E as [-> E].
    split; [reflexivity|]. now apply append_inj_l in E.
  - intros [-> ->]. reflexivity.
Qed.

(** X3.  Whatever a run does to the tree it does at [OUT_DIR] or below:
    every path that parts ways with [OUT_DIR] names after the run what it
    named before, and so does every path at [IN_DIR] or below. *)
Theorem main_changes_only_output w r w' :
  main w = (r, w') ->
  (forall q, diverge OUT_DIR q = true -> lookup q (fs w') = lookup q (fs w))
  /\ (forall rel,
        lookup (IN_DIR ++ rel) (fs w') = lookup (IN_DIR ++ rel) (fs w)).
Proof.
  intros H. destruct (main_tree w r w' H) as [S _]. split; [exact S|].
  intros rel. apply S. change (IN_DIR ++ rel)
    with ("public" :: "patterns" :: rel). reflexivity.
Qed.

(** X4.  A run never removes or rewrites a file: every regular file that
    was anywhere in the tree before the run is there after it with the
    same bytes, the outputs of earlier runs included. *)
Theorem main_keeps_existing_files w r w' :
  main w = (r, w') ->
  forall q c, lookup q (fs w) = Some (File c) ->
              lookup q (fs w') = Some (File c).
Proof. intros H. now destruct (main_tree w r w' H). Qed.

(** X5.  When [convert_one] returns, the source was a regular file that
    decoded, and the destination holds what the PNG encoder, asked to
    optimise, made of the image after frame selection and mode check:
    that image itself if its mode is "RGB" or "RGBA", its conversion to
    "RGB" otherwise. *)
Theorem converted_file_holds_encoding src dst w w' :
  convert_one src dst w = (Ok tt, w') ->
  exists n1 c im0 im bytes,
    mkdir_p (PurePath.parent dst) (fs w) = inr n1
    /\ lookup src n1 = Some (File c)
    /\ decode c = inr im0
    /\ (if in_ (mode (after_seek im0)) ["RGB"; "RGBA"]
        then im = after_seek im0
        else convert (after_seek im0) "RGB" = inr im)
    /\ encode_png im true = inr bytes
    /\ lookup dst (fs w') = Some (File bytes).
Proof.
  intros H.
  destruct (convert_one_shape _ _ _ _ _ H)
    as [(e & _ & _ & E)|(n1 & Mk & [(_ & e & E)|S])]; try discriminate.
  destruct S as (c & im0 & im & ws & ws' & L & D & N & Fs & Sv & E).
  destruct (Image_save_ok_content _ _ _ _ _ Sv) as (bytes & En & Lb).
  exists n1, c, im0, im, bytes. rewrite E. auto 10.
Qed.

(** X6.  A candidate whose bytes do not decode is counted as failed with
    the decoder's error in its line.  The directories above its
    destination have been made all the same, the source was opened and
    nothing else was called, and no file was written. *)
Theorem undecodable_source_is_reported rel dst t w c e n1 :
  rel <> [] ->
  is_candidate (IN_DIR ++ rel) (fs w) = true ->
  lookup (IN_DIR ++ rel) (fs w) = Some (File c) ->
  decode c = inl e ->
  destination (IN_DIR ++ rel) = inr dst ->
  exists_ dst (fs w) = false ->
  mkdir_p (PurePath.parent dst) (fs w) = inr n1 ->
  loop_body (IN_DIR ++ rel) t w =
  (Ok (failed_one t),
   mkWorld n1 (cwd w)
     (stdout w ++ [fail_line (IN_DIR ++ rel) dst e])
     (calls w ++ [EvMkdir (PurePath.parent dst); EvOpen (IN_DIR ++ rel)]))
  /\ keeps_files (fs w) n1
  /\ exists_ dst n1 = false.
Proof.
  intros N C L D Ds X Mk.
  destruct (destination_shape _ _ Ds) as (dirs & nm & Sh).
  assert (Nd : dst <> []) by (subst dst; discriminate).
  assert (L1 : lookup (IN_DIR ++ rel) n1 = Some (File c)).
  { rewrite <- L. eapply mkdir_p_frame; eauto.
    subst dst. rewrite parent_of_destination.
    apply diverge_app. reflexivity. }
  assert (Op : match lookup (IN_DIR ++ rel) n1 with
               | Some (File c) => decode c
               | Some (Dir _) => inl (IsADirectoryError "Is a directory")
               | None => inl (FileNotFoundError "No such file or directory")
               end = inl e) by now rewrite L1.
  rewrite (loop_body_candidate _ _ t _ C Ds), X.
  rewrite (convert_one_open_fails _ _ _ _ _ Mk Op).
  split; [reflexivity|].
  split; [eapply mkdir_p_keeps_files; eauto|].
  eapply mkdir_parent_keeps_absent; eauto.
Qed.


(** What one turn of the loop prints: a line if it counts a failure,
    nothing otherwise. *)
Lemma loop_body_stdout rel t w r w' :
  rel <> [] -> loop_body (IN_DIR ++ rel) t w = (r, w') ->
  exists t1 fails,
    r = Ok t1
    /\ stdout w' = stdout w ++ fails
    /\ Z.of_nat (List.length fails) = count_failed t1 - count_failed t
    /\ Forall (fun l => exists src dst e, l = fail_line src dst e) fails.
Proof.
  intros N H.
  destruct (loop_body_cases rel t w r w' N H)
    as [[-> ->]|(dst & dirs & nm & _ & _ & _
                 & [(-> & -> & _)|(_ & [(-> & CO)|Fl])])].
  - exists t, []. rewrite app_nil_r. simpl. repeat split; auto; lia.
  - exists (skipped_one t), []. rewrite app_nil_r. simpl.
    repeat split; auto; lia.
  - destruct (convert_one_rel _ _ _ _ _ CO) as (_ & _ & So & _).
    exists (converted_one t), []. rewrite app_nil_r. simpl.
    repeat split; auto; lia.
  - destruct Fl as (e & w0 & -> & CO & ->).
    destruct (convert_one_rel _ _ _ _ _ CO) as (_ & _ & So & _).
    exists (failed_one t), [fail_line (IN_DIR ++ rel) dst e]. simpl.
    rewrite So. repeat split; auto; try lia.
    constructor; eauto.
Qed.

Lemma for_each_stdout rels : forall t w r w',
  Forall (fun rel => rel <> []) rels ->
  for_each (map (PurePath.joinpath IN_DIR) rels) loop_body t w = (r, w') ->
  exists t1 fails,
    r = Ok t1
    /\ stdout w' = stdout w ++ fails
    /\ Z.of_nat (List.length fails) = count_failed t1 - count_failed t
    /\ Forall (fun l => exists src dst e, l = fail_line src dst e) fails.
Proof.
  induction rels as [|rel rels IH]; intros t w r w' NE H.
  - inversion H; subst. exists t, []. rewrite app_nil_r. simpl.
    repeat split; auto; lia.
  - inversion NE as [|? ? N NE']; subst.
    cbn [map] in H. rewrite for_each_cons in H.
    unfold PurePath.joinpath at 1, bind in H.
    destruct (loop_body (IN_DIR ++ rel) t w) as [r1 w1] eqn:B.
    destruct (loop_body_stdout rel t w r1 w1 N B)
      as (t1 & f1 & -> & S1 & C1 & F1).
    destruct (IH t1 w1 r w' NE' H) as (t2 & f2 & -> & S2 & C2 & F2).
    exists t2, (f1 ++ f2). rewrite S2, S1, <- app_assoc, length_app.
    repeat split; auto using Forall_app; try lia.
    apply Forall_app. auto.
Qed.

(** X8.  When the input path is there, what a run prints is one line per
    failed conversion, as many as the failed counter says, followed by the
    seven lines of the report with the counters the run ended with. *)
Theorem report_follows_fail_lines w :
  exists_ IN_DIR (fs w) = true ->
  exists t w' fails,
    main w = (Ok t, w')
    /\ stdout w' = stdout w ++ fails ++ report (cwd w) t
    /\ Z.of_nat (List.length fails) = count_failed t
    /\ Forall (fun l => exists src dst e, l = fail_line src dst e) fails.
Proof.
  intros X. unfold exists_ in X.
  destruct (lookup IN_DIR (fs w)) as [root|] eqn:L; [|discriminate].
  destruct (for_each_loop (rglob root) tally0 w root (rglob_nonempty root) L)
    as (t & w1 & R & _ & _ & C & _).
  destruct (for_each_stdout _ _ _ _ _ (rglob_nonempty root) R)
    as (t1 & fails & E & S & Cn & F).
  inversion E; subst t1.
  exists t, (printed w1 (report (cwd w) t)), fails.
  split; [apply (main_present w root t w1 L R C)|].
  simpl. rewrite S, <- app_assoc. simpl in Cn.
  repeat split; auto; lia.
Qed.

(** X9.  When the tree at the input path holds no regular file with a
    TIFF extension, a run makes no call and changes nothing: it prints the
    report with four zeros and the output directory is not created. *)
Theorem nothing_to_convert_touches_nothing w root :
  lookup IN_DIR (fs w) = Some root -> wf root -> count_tiff root = 0%nat ->
  main w = (Ok tally0, printed w (report (cwd w) tally0)).
Proof.
  intros L W Z.
  assert (Nc : ncand root (rglob root) = 0%nat) by now rewrite ncand_rglob.
  assert (No : forall rel, In rel (rglob root) ->
                           is_candidate rel root = true -> False).
  { intros rel I C. unfold ncand in Nc.
    assert (In rel (filter (fun rel => is_candidate rel root) (rglob root)))
      by (apply filter_In; auto).
    destruct (filter _ (rglob root)); [contradiction | discriminate]. }
  pose proof (for_each_all_skipped (rglob root) tally0 w root
                (rglob_nonempty root) L) as R.
  rewrite Nc in R. simpl in R.
  apply (main_present w root tally0 w L); auto.
  apply R. intros rel I C. destruct (No rel I C).
Qed.

(** X10.  After a run that counted no failure, every candidate of the
    input tree has something at its destination. *)
Theorem no_failure_means_all_in_place w t w' root :
  main w = (Ok t, w') ->
  count_failed t = 0 ->
  lookup IN_DIR (fs w) = Some root ->
  forall rel, In rel (rglob root) -> is_candidate rel root = true ->
  exists dst,
    destination (IN_DIR ++ rel) = inr dst /\ exists_ dst (fs w') = true.
Proof.
  intros M F L rel I C.
  assert (X : exists_ IN_DIR (fs w) = true) by (unfold exists_; now rewrite L).
  destruct (main_returns w X) as (t0 & w1 & M' & Fs & _ & _ & _ & _ & _ & T).
  rewrite M' in M. inversion M; subst t0 w'.
  destruct (T root L) as [_ Ex].
  destruct (Ex F rel I C) as (dst & D & E).
  exists dst. split; [exact D|]. now rewrite Fs.
Qed.

Lemma strip_prefix_some a : forall p rel,
  PurePath.strip_prefix a p = Some rel -> p = a ++ rel.
Proof.
  induction a as [|x a IH]; intros [|y p] rel H; simpl in H;
    try discriminate; try (inversion H; reflexivity).
  destruct (String.eqb x y) eqn:E; [|discriminate].
  apply String.eqb_eq in E. subst y. simpl. f_equal. auto.
Qed.

(** X11.  The destination of a path can be computed exactly when the path
    lies below [IN_DIR] and ends in a name that is not empty; for
    [IN_DIR] itself and for a path elsewhere the computation raises
    [ValueError]. *)
Theorem destination_defined_iff src :
  ((exists dst, destination src = inr dst) <->
   (exists rel, src = IN_DIR ++ rel /\ PurePath.name rel <> ""))
  /\ (forall e, destination src = inl e -> exc_class e = "ValueError").
Proof.
  unfold destination, PurePath.relative_to, PurePath.with_suffix.
  split; [split|].
  - intros (dst & H).
    destruct (PurePath.strip_prefix IN_DIR src) as [rel|] eqn:S;
      [|discriminate].
    exists rel. split; [now apply strip_prefix_some|].
    destruct (String.eqb (PurePath.name rel) "") eqn:E; [discriminate|].
    now apply String.eqb_neq.
  - intros (rel & -> & N). rewrite strip_prefix_app.
    apply String.eqb_neq in N. rewrite N. eauto.
  - intros e H.
    destruct (PurePath.strip_prefix IN_DIR src) as [rel|].
    + destruct (String.eqb (PurePath.name rel) ""); inversion H. reflexivity.
    + inversion H. reflexivity.
Qed.

End More.

(** * The further properties on concrete trees *)

(** X1 at three names *)
Lemma tiff_name_iff_witness :
  tiff_name "scan.TiF" = true
  /\ tiff_name ".tif" = false
  /\ exists stem ext,
       "scan.TiF" = stem ^^ ext /\ stem <> ""
       /\ (Str.lower ext = ".tif" \/ Str.lower ext = ".tiff").
Proof.
  split; [reflexivity|]. split; [reflexivity|].
  exact (proj1 (tiff_name_iff "scan.TiF") eq_refl).
Defined.

(** X2 at [a.tif] and [a.TIFF] *)
Lemma same_destination_iff_witness :
  (tiff_name "a.tif" = true /\ tiff_name "a.TIFF" = true)
  /\ destination (IN_DIR ++ ["s"] ++ ["a.tif"])
     = destination (IN_DIR ++ ["s"] ++ ["a.TIFF"]).
Proof.
  split; [split; reflexivity|].
  apply (proj2 (same_destination_iff ["s"] "a.tif" ["s"] "a.TIFF"
                  eq_refl eq_refl)).
  split; reflexivity.
Defined.

(** X3 at [tree_sample] *)
Lemma main_changes_only_output_witness :
  let w := fresh tree_sample in
  let r := fst (main w) in
  let w' := snd (main w) in
  main w = (r, w')
  /\ FS.lookup IN_DIR (fs w') = FS.lookup IN_DIR (fs w).
Proof.
  intros w r w'.
  assert (H : main w = (r, w')) by (vm_compute; reflexivity).
  split; [exact H|].
  exact (proj2 (main_changes_only_output w r w' H) []).
Defined.

(** X4 at [tree_converted]: the output of an earlier run stays *)
Lemma main_keeps_existing_files_witness :
  let w := fresh tree_converted in
  let r := fst (main w) in
  let w' := snd (main w) in
  let q := ["public"; "patterns_png"; "a.png"] in
  (main w = (r, w') /\ FS.lookup q (fs w) = Some (File "sentinel"))
  /\ FS.lookup q (fs w') = Some (File "sentinel").
Proof.
  intros w r w' q.
  assert (H : main w = (r, w')) by (vm_compute; reflexivity).
  split; [split; [exact H | reflexivity]|].
  exact (main_keeps_existing_files w r w' H q "sentinel" eq_refl).
Defined.

(** X5 at the palette image of [tree_sample] *)
Lemma converted_file_holds_encoding_witness :
  let src := ["public"; "patterns"; "sub"; "b.TIFF"] in
  let dst := ["public"; "patterns_png"; "sub"; "b.png"] in
  let w := fresh tree_sample in
  let w' := snd (convert_one src dst w) in
  convert_one src dst w = (Ok tt, w')
  /\ exists n1 c im0 im bytes,
       FS.mkdir_p (PurePath.parent dst) (fs w) = inr n1
       /\ FS.lookup src n1 = Some (File c)
       /\ decode c = inr im0
       /\ (if in_ (mode (after_seek im0)) ["RGB"; "RGBA"]
           then im = after_seek im0
           else convert (after_seek im0) "RGB" = inr im)
       /\ encode_png im true = inr bytes
       /\ FS.lookup dst (fs w') = Some (File bytes).
Proof.
  intros src dst w w'.
  assert (H : convert_one src dst w = (Ok tt, w')) by (vm_compute; reflexivity).
  split; [exact H|].
  exact (converted_file_holds_encoding src dst w w' H).
Defined.

(** X6 at the file of [tree_mixed] that is not an image *)
Lemma undecodable_source_is_reported_witness :
  let rel := ["bad.tif"] in
  let dst := ["public"; "patterns_png"; "bad.png"] in
  let w := fresh tree_mixed in
  let e := mkExc "UnidentifiedImageError" "cannot identify image file" in
  let n1 := match FS.mkdir_p (PurePath.parent dst) (fs w) with
            | inr n => n
            | inl _ => Dir []
            end in
  (rel <> []
   /\ is_candidate (IN_DIR ++ rel) (fs w) = true
   /\ FS.lookup (IN_DIR ++ rel) (fs w) = Some (File "zz")
   /\ decode "zz" = inl e
   /\ destination (IN_DIR ++ rel) = inr dst
   /\ FS.exists_ dst (fs w) = false
   /\ FS.mkdir_p (PurePath.parent dst) (fs w) = inr n1)
  /\ fst (loop_body (IN_DIR ++ rel) tally0 w) = Ok (mkTally 1 0 0 1)
  /\ FS.exists_ dst n1 = false.
Proof.
  intros rel dst w e n1.
  assert (N : rel <> []) by discriminate.
  split; [repeat split; exact N|].
  destruct (undecodable_source_is_reported rel dst tally0 w "zz" e n1
              N eq_refl eq_refl eq_refl eq_refl eq_refl eq_refl)
    as (B & _ & X).
  split; [now rewrite B | exact X].
Defined.


(** X8 at [tree_mixed] *)
Lemma report_follows_fail_lines_witness :
  let w := fresh tree_mixed in
  FS.exists_ IN_DIR (fs w) = true
  /\ exists t w' fails,
       main w = (Ok t, w')
       /\ stdout w' = stdout w ++ fails ++ report (cwd w) t
       /\ Z.of_nat (List.length fails) = count_failed t
       /\ Forall (fun l => exists src dst e, l = fail_line src dst e) fails.
Proof.
  intros w. split; [reflexivity|].
  exact (report_follows_fail_lines w eq_refl).
Defined.

(** X9 at [tree_no_tiff] *)
Lemma nothing_to_convert_touches_nothing_witness :
  let w := fresh tree_no_tiff in
  let root := Dir [("notes.txt", File "Rxx"); (".tif", File "Rxx");
                   ("old.tiff", Dir [])] in
  (FS.lookup IN_DIR (fs w) = Some root /\ count_tiff root = 0%nat)
  /\ main w = (Ok tally0, printed w (report (cwd w) tally0)).
Proof.
  intros w root. split; [split; reflexivity|].
  refine (nothing_to_convert_touches_nothing w root eq_refl _ eq_refl).
  wf_tree.
Defined.

(** X10 at [tree_twins] *)
Lemma no_failure_means_all_in_place_witness :
  let w := fresh tree_twins in
  let t := mkTally 2 1 1 0 in
  let w' := snd (main w) in
  let root := Dir [("a.tif", File "Rxx"); ("a.tiff", File "Ayy")] in
  (main w = (Ok t, w') /\ count_failed t = 0
   /\ FS.lookup IN_DIR (fs w) = Some root
   /\ In ["a.tiff"] (FS.rglob root)
   /\ is_candidate ["a.tiff"] root = true)
  /\ exists dst,
       destination (IN_DIR ++ ["a.tiff"]) = inr dst
       /\ FS.exists_ dst (fs w') = true.
Proof.
  intros w t w' root.
  assert (H : main w = (Ok t, w')) by (vm_compute; reflexivity).
  assert (I : In ["a.tiff"] (FS.rglob root)) by (simpl; auto).
  split.
  { split; [exact H|]. split; [reflexivity|]. split; [reflexivity|].
    split; [exact I | reflexivity]. }
  exact (no_failure_means_all_in_place w t w' root H eq_refl eq_refl
           ["a.tiff"] I eq_refl).
Defined.
